(** * snippet-expander-win: the keyword watcher of src/native/snippet-expander-win.c

    A shallow embedding of the C program.  The process-wide globals
    ([g_keywords], [g_max_keyword_len], [g_allowed], [g_delimiters],
    [g_token]) become one record that every function takes and returns;
    what the program prints on stdout becomes a list of messages. *)

From Stdlib Require Import Strings.Byte Strings.String ZArith Lia.
From stdpp Require Import base decidable option list strings.

#[global] Instance byte_eq_decision : EqDecision byte := Byte.byte_eq_dec.

(** ** The pieces of the C library the program uses *)
Module C.

(** [tolower] of <ctype.h> in the "C" locale (the program never calls
    setlocale), on an [unsigned char] value: 'A'..'Z' move to 'a'..'z'. *)
Definition tolower (c : byte) : byte :=
  let n := Byte.to_N c in
  if ((65 <=? n) && (n <=? 90))%N
  then default c (Byte.of_N (n + 32))
  else c.

(** A char array read as a C string: the bytes before the first NUL
    (the end of the list stands for the terminator the code writes). *)
Fixpoint c_str (s : list byte) : list byte :=
  match s with
  | [] => []
  | c :: rest => if decide (c = x00) then [] else c :: c_str rest
  end.

(** [strcmp(a, b) == 0] *)
Definition strcmp_eq (a b : list byte) : bool :=
  bool_decide (c_str a = c_str b).

(** [text] of a string literal, as bytes *)
Definition bytes (text : string) : list byte := list_byte_of_string text.

End C.

(** ** Constants *)
Definition MAX_KEYWORDS : nat := 512.
Definition MAX_KEYWORD_LEN : nat := 128.
Definition MAX_TOKEN_LEN : nat := 512.

(** ** Messages written to stdout, one per line *)
Inductive message : Type :=
  | Ready                                              (* {"ready":true} *)
  | Keyword (keyword : list byte) (delimiter : byte)   (* {"keyword":..,"delimiter":..} *)
  | Error (msg : string).                              (* {"error":..} *)

#[global] Instance message_eq_decision : EqDecision message.
Proof. solve_decision. Defined.

(** The delimiter of a match found on the token-character path: '\0',
    which [json_escape_char] prints as the empty string. *)
Definition NUL : byte := x00.

(** ** The globals

    [g_keywords] holds the first [g_keyword_count] rows of the C table, so
    the count is its length; [g_token] holds the first [g_token_len] bytes
    of the C buffer.  The two [int] lengths stay within [0, 512], so they are
    natural numbers here.  The two character tables are arrays of 256 flags
    indexed by an [unsigned char]. *)
Record globals : Type := Globals {
  g_keywords : list (list byte);
  g_max_keyword_len : nat;
  g_allowed : list bool;
  g_delimiters : list bool;
  g_token : list byte;
}.

Definition g_keyword_count (g : globals) : nat := length (g_keywords g).
Definition g_token_len (g : globals) : nat := length (g_token g).

(** The values of the static initialisers. *)
Definition initial_globals : globals :=
  {| g_keywords := [];
     g_max_keyword_len := 1;
     g_allowed := replicate 256 false;
     g_delimiters := replicate 256 false;
     g_token := [] |}.

Definition set_token (g : globals) (token : list byte) : globals :=
  {| g_keywords := g_keywords g;
     g_max_keyword_len := g_max_keyword_len g;
     g_allowed := g_allowed g;
     g_delimiters := g_delimiters g;
     g_token := token |}.

Definition set_charsets (g : globals) (allowed delimiters : list bool) : globals :=
  {| g_keywords := g_keywords g;
     g_max_keyword_len := g_max_keyword_len g;
     g_allowed := allowed;
     g_delimiters := delimiters;
     g_token := g_token g |}.

(** [table[c]] and [table[c] = v] for an [unsigned char c]. *)
Definition tbl_get (table : list bool) (c : byte) : bool :=
  default false (table !! Byte.to_nat c).

Definition tbl_set (table : list bool) (c : byte) (v : bool) : list bool :=
  <[Byte.to_nat c := v]> table.

(** ** Token buffer *)

Definition clear_token (g : globals) : globals := set_token g [].

Definition trim_token_to_max (g : globals) : globals :=
  if g_token_len g <=? g_max_keyword_len g then g
  else
    let keep := g_max_keyword_len g in
    let remove := g_token_len g - keep in
    set_token g (take keep (drop remove (g_token g))).

(** ** Keyword registry *)

Fixpoint keyword_scan (keywords : list (list byte)) (text : list byte) (i : nat)
  : option nat :=
  match keywords with
  | [] => None
  | kw :: rest =>
      if C.strcmp_eq kw text then Some i else keyword_scan rest text (S i)
  end.

(** [keyword_index]: [None] is the C function's -1. *)
Definition keyword_index (g : globals) (text : list byte) : option nat :=
  match C.c_str text with
  | [] => None
  | _ => keyword_scan (g_keywords g) text 0
  end.

(** The copy loop of [append_keyword]: lower-cases [src] into [buf] until
    the terminator or until [room] bytes are written. *)
Fixpoint lower_copy (src : list byte) (room : nat) : list byte :=
  match src, room with
  | c :: rest, S room' =>
      if decide (c = x00) then [] else C.tolower c :: lower_copy rest room'
  | _, _ => []
  end.

(** [append_keyword]: [src = None] is the NULL pointer; the result is the
    C function's 0 ([false]) or 1 ([true]). *)
Definition append_keyword (src : option (list byte)) (g : globals) : globals * bool :=
  match src with
  | None => (g, false)
  | Some src =>
      if MAX_KEYWORDS <=? g_keyword_count g then (g, false)
      else
        let buf := lower_copy src MAX_KEYWORD_LEN in
        let n := length buf in
        if n =? 0 then (g, false)
        else if existsb (fun kw => C.strcmp_eq kw buf) (g_keywords g) then (g, true)
        else
          ({| g_keywords := g_keywords g ++ [buf];
              g_max_keyword_len :=
                if g_max_keyword_len g <? n then n else g_max_keyword_len g;
              g_allowed := g_allowed g;
              g_delimiters := g_delimiters g;
              g_token := g_token g |}, true)
  end.

(** ** Character classifier *)

Definition is_keyword_whitespace (c : byte) : bool :=
  bool_decide (c = x0d) || bool_decide (c = x0a) ||
  bool_decide (c = x09) || bool_decide (c = x20).

(** The string literal [delimiters] of [seed_charsets]:
    space, tab, CR, LF, the punctuation, the double quote and the quote. *)
Definition default_delimiters : list byte :=
  [x20; x09; x0d; x0a] ++ C.bytes ".,!?;:()[]{}<>/\|@#$%^&*+=`~" ++ [x22; x27].

Definition mark (cs : list byte) (table : list bool) : list bool :=
  foldl (fun t c => tbl_set t c true) table cs.

Definition seed_charsets (g : globals) : globals :=
  let zero := replicate 256 false in
  let allowed :=
    tbl_set (tbl_set
      (mark (C.bytes "0123456789")
        (mark (C.bytes "abcdefghijklmnopqrstuvwxyz") zero))
      "-"%byte true) "_"%byte true in
  let delimiters := mark (C.c_str default_delimiters) zero in
  set_charsets g allowed delimiters.

(** One turn of the inner loop of [apply_keyword_chars_to_charsets], on
    the pair of tables. *)
Definition widen_char (tables : list bool * list bool) (kwj : byte)
  : list bool * list bool :=
  let c := C.tolower kwj in
  if is_keyword_whitespace c then tables
  else (tbl_set tables.1 c true, tbl_set tables.2 c false).

Definition widen_keyword (tables : list bool * list bool) (kw : list byte)
  : list bool * list bool :=
  foldl widen_char tables (C.c_str kw).

Definition apply_keyword_chars_to_charsets (g : globals) : globals :=
  let tables := foldl widen_keyword (g_allowed g, g_delimiters g) (g_keywords g) in
  set_charsets g tables.1 tables.2.

(** ** Token matching *)

Definition emit_keyword (keyword : list byte) (delimiter : byte) : message :=
  Keyword (C.c_str keyword) delimiter.

Definition process_char (raw : byte) (g : globals) : globals * list message :=
  let c := C.tolower raw in
  if tbl_get (g_allowed g) c then
    let g1 := if g_token_len g <? MAX_TOKEN_LEN
              then set_token g (g_token g ++ [c]) else g in
    let g2 := trim_token_to_max g1 in
    match keyword_index g2 (g_token g2) with
    | Some _ => (clear_token g2, [emit_keyword (g_token g2) NUL])
    | None => (g2, [])
    end
  else if tbl_get (g_delimiters g) c then
    let out :=
      if (0 <? g_token_len g) && bool_decide (is_Some (keyword_index g (g_token g)))
      then [emit_keyword (g_token g) c] else [] in
    (clear_token g, out)
  else (clear_token g, []).

(** ** Configuration parsing *)

(** The locals of [parse_keywords_json]; [cur_len] is [length current]. *)
Record scanner : Type := Scanner {
  in_string : bool;
  escaped : bool;
  current : list byte;
}.

Definition push_current (current : list byte) (ch : byte) : list byte :=
  if length current <? MAX_KEYWORD_LEN then current ++ [ch] else current.

(** One turn of the scanning loop, on the character [ch]. *)
Definition scan_char (st : scanner * globals) (ch : byte) : scanner * globals :=
  let '(s, g) := st in
  if negb (in_string s) then
    if decide (ch = x22)
    then (Scanner true false [], g)
    else (s, g)
  else if escaped s then
    let out := if decide (ch = "n"%byte) then x0a
               else if decide (ch = "r"%byte) then x0d
               else if decide (ch = "t"%byte) then x09
               else ch in
    (Scanner true false (push_current (current s) out), g)
  else if decide (ch = x5c) then (Scanner true true (current s), g)
  else if decide (ch = x22) then
    (Scanner false false (current s), (append_keyword (Some (current s)) g).1)
  else (Scanner true false (push_current (current s) ch), g).

Definition parse_keywords_json (json : option (list byte)) (g : globals)
  : globals * bool :=
  match json with
  | None => (g, false)
  | Some json =>
      let g' := (foldl scan_char (Scanner false false [], g) (C.c_str json)).2 in
      (g', 0 <? g_keyword_count g')
  end.

(** ** Key events *)

(** Constants of <windows.h>. *)
Definition VK_BACK : Z := 0x08.
Definition HC_ACTION : Z := 0.
Definition WM_KEYDOWN : Z := 0x0100.
Definition WM_SYSKEYDOWN : Z := 0x0104.

(** What the operating system answers while one key event is handled: the
    four [GetAsyncKeyState] results (VK_CONTROL, VK_MENU, VK_LWIN, VK_RWIN),
    whether [GetKeyboardState] succeeded, and the return code and the
    buffer of the first [ToUnicodeEx] call. *)
Record key_event : Type := KeyEvent {
  vk : Z;
  scan_code : Z;
  async_control : Z;
  async_menu : Z;
  async_lwin : Z;
  async_rwin : Z;
  keyboard_state_ok : bool;
  to_unicode_rc : Z;
  to_unicode_buf : list Z;
}.

(** The calls made to the layout engine, in order. *)
Inductive layout_call : Type :=
  | Decode      (* ToUnicodeEx on the key with the current key state *)
  | Neutralize. (* ToUnicodeEx on the key with the all-keys-up state *)

Definition high_bit_set (state : Z) : bool :=
  negb (Z.land state 0x8000 =? 0)%Z.

Definition is_modifier_down (k : key_event) : bool :=
  if high_bit_set (async_control k) then true
  else if high_bit_set (async_menu k) then true
  else if high_bit_set (async_lwin k) then true
  else if high_bit_set (async_rwin k) then true
  else false.

(** The branch of [process_key_event] for VK_BACK. *)
Definition backspace (g : globals) : globals :=
  if 0 <? g_token_len g
  then set_token g (take (g_token_len g - 1) (g_token g))
  else g.

(** The body of the loop over the decoded code units. *)
Definition process_unit (st : globals * list message) (wc : Z)
  : globals * list message :=
  let '(g, out) := st in
  if ((wc <=? 0) || (127 <? wc))%Z then (clear_token g, out)
  else
    let '(g', out') := process_char (default x00 (Byte.of_N (Z.to_N wc))) g in
    (g', out ++ out').

Definition process_key_event (k : key_event) (g : globals)
  : globals * list message * list layout_call :=
  if (vk k =? VK_BACK)%Z then (backspace g, [], [])
  else if is_modifier_down k then (clear_token g, [], [])
  else if negb (keyboard_state_ok k) then (clear_token g, [], [])
  else
    let rc := to_unicode_rc k in
    if (rc <=? 0)%Z then
      (g, [], if (rc <? 0)%Z then [Decode; Neutralize] else [Decode])
    else
      let '(g', out) :=
        foldl process_unit (g, []) (take (Z.to_nat rc) (to_unicode_buf k)) in
      (g', out, [Decode]).

(** One invocation of the hook procedure. *)
Record hook_call : Type := HookCall {
  nCode : Z;
  wParam : Z;
  kb : key_event;
}.

Definition keyboard_hook (h : hook_call) (st : globals * list message)
  : globals * list message :=
  let '(g, out) := st in
  if ((nCode h =? HC_ACTION) && ((wParam h =? WM_KEYDOWN) || (wParam h =? WM_SYSKEYDOWN)))%Z
  then let '(g', out', _) := process_key_event (kb h) g in (g', out ++ out')
  else (g, out).

(** ** The process *)

(** What the process meets: its arguments ([argc] is their number), whether
    [SetWindowsHookExW] returns a hook, and the hook calls the message loop
    delivers before [GetMessage] stops it. *)
Record run : Type := Run {
  argv : list (list byte);
  hook_installed : bool;
  delivered : list hook_call;
}.

Definition emit_error (msg : string) : message := Error msg.
Definition emit_ready : message := Ready.

(** [main]: the lines written to stdout and the exit code. *)
Definition main (r : run) : list message * Z :=
  if length (argv r) <? 2 then
    ([emit_error "Usage: snippet-expander-win <keywords-json>"], 1%Z)
  else
    let g := seed_charsets initial_globals in
    let '(g, ok) := parse_keywords_json (argv r !! 1) g in
    if negb ok then ([emit_error "Invalid or empty keywords JSON"], 1%Z)
    else
      let g := apply_keyword_chars_to_charsets g in
      if negb (hook_installed r) then ([emit_error "SetWindowsHookEx failed"], 2%Z)
      else
        let '(_, out) := foldl (fun st h => keyboard_hook h st) (g, [emit_ready]) (delivered r) in
        (out, 0%Z).

(** ** The engine as a transition function

    [process_key_event] reaches the token buffer in four ways: a decoded
    character goes to [process_char], VK_BACK removes a byte, a held
    modifier or a failed [GetKeyboardState] clears the buffer, and a code
    unit outside 1..127 clears it. *)
Inductive engine_input : Type :=
  | TypeChar (c : byte)
  | PressBackspace
  | ModifierHeld
  | NonAscii.

Definition engine_step (i : engine_input) (g : globals) : globals * list message :=
  match i with
  | TypeChar c => process_char c g
  | PressBackspace => (backspace g, [])
  | ModifierHeld => (clear_token g, [])
  | NonAscii => (clear_token g, [])
  end.

(** Runs the inputs in order; the result keeps what each input emitted. *)
Fixpoint engine_run (inputs : list engine_input) (g : globals)
  : globals * list (list message) :=
  match inputs with
  | [] => (g, [])
  | i :: rest =>
      let '(g1, out) := engine_step i g in
      let '(g2, outs) := engine_run rest g1 in
      (g2, out :: outs)
  end.

Definition type_text (text : list byte) : list engine_input := TypeChar <$> text.

(** The engine inputs one key event amounts to. *)
Definition unit_input (wc : Z) : engine_input :=
  if ((wc <=? 0) || (127 <? wc))%Z then NonAscii
  else TypeChar (default x00 (Byte.of_N (Z.to_N wc))).

Definition key_inputs (k : key_event) : list engine_input :=
  if (vk k =? VK_BACK)%Z then [PressBackspace]
  else if is_modifier_down k then [ModifierHeld]
  else if negb (keyboard_state_ok k) then [ModifierHeld]
  else if (to_unicode_rc k <=? 0)%Z then []
  else unit_input <$> take (Z.to_nat (to_unicode_rc k)) (to_unicode_buf k).

(** ** Start-up

    [register_all] is a run of [append_keyword] calls, as the scanner makes
    them; [configure] is what [main] does to the globals before it installs
    the hook, for the keyword texts the scanner found. *)
Definition register_all (texts : list (list byte)) (g : globals) : globals :=
  foldl (fun g text => (append_keyword (Some text) g).1) g texts.

Definition configure (texts : list (list byte)) : globals :=
  apply_keyword_chars_to_charsets (register_all texts (seed_charsets initial_globals)).

(** The states the running watcher passes through. *)
Inductive reachable : globals -> Prop :=
  | reachable_configure texts : reachable (configure texts)
  | reachable_step i g : reachable g -> reachable (engine_step i g).1.

(** ** Vocabulary of the specification *)

(** The last [n] elements of a list: "trimmed to [n], oldest dropped". *)
Definition most_recent {A} (n : nat) (l : list A) : list A :=
  drop (length l - n) l.

(** The longest keyword length in [K]. *)
Definition longest (K : list (list byte)) : nat :=
  foldr (fun kw m => Nat.max (length kw) m) 0 K.

(** A character is classified as a token character, as a delimiter, or as
    neither, after lower-casing. *)
Definition is_token_char (g : globals) (c : byte) : bool :=
  tbl_get (g_allowed g) (C.tolower c).

Definition is_delimiter_char (g : globals) (c : byte) : bool :=
  negb (tbl_get (g_allowed g) (C.tolower c)) && tbl_get (g_delimiters g) (C.tolower c).

(** The bytes the widening pass reaches: the lower-cased bytes of the
    keywords, whitespace apart. *)
Definition widens_on (c : byte) (kwj : byte) : bool :=
  bool_decide (C.tolower kwj = c) && negb (is_keyword_whitespace c).

Definition widened (keywords : list (list byte)) (c : byte) : bool :=
  existsb (fun kw => existsb (widens_on c) (C.c_str kw)) keywords.

(** The run of token characters that ends a character sequence: the
    lower-cased characters after the last one that is not a token
    character. *)
Definition token_run (g : globals) (typed : list byte) : list byte :=
  foldl (fun run c => if is_token_char g c then run ++ [C.tolower c] else []) [] typed.

(** The same run when a match also ends it.  The state is the pair of the
    run left for the next character and the run as it stands at the last
    character, the one compared with the keywords. *)
Definition run_step (g : globals) (st : list byte * list byte) (c : byte)
  : list byte * list byte :=
  let run := if is_token_char g c then st.1 ++ [C.tolower c] else [] in
  let candidate := most_recent (longest (g_keywords g)) run in
  (if bool_decide (candidate ∈ g_keywords g) then [] else run, run).

Definition run_since_reset (g : globals) (typed : list byte) : list byte :=
  (foldl (run_step g) ([], []) typed).2.

(** The keyword matches among messages. *)
Definition is_match (m : message) : bool :=
  match m with Keyword _ _ => true | _ => false end.

(** [p] is a proper, non-empty prefix of [k]. *)
Definition proper_prefix (p k : list byte) : Prop :=
  p ≠ [] ∧ p ≠ k ∧ p `prefix_of` k.

(** What the watcher emits at each position of a typed character sequence,
    from start-up with the keyword texts [texts], and whether a match fires
    at position [n]. *)
Definition emitted_at (texts : list (list byte)) (typed : list byte)
  : list (list message) :=
  (engine_run (type_text typed) (configure texts)).2.

Definition fires_at (texts : list (list byte)) (typed : list byte) (n : nat) : Prop :=
  ∃ out, emitted_at texts typed !! n = Some out ∧ out ≠ [].

(** The characters of [k], one backspace, the final character of [k] again,
    and everything the watcher emits on these inputs from start-up (each
    message it emits there is a keyword match). *)
Definition backspace_retype (k : list byte) : list engine_input :=
  type_text k ++ PressBackspace :: type_text (most_recent 1 k).

Definition retype_matches (texts : list (list byte)) (k : list byte) : list message :=
  concat (engine_run (backspace_retype k) (configure texts)).2.

(** The number of keywords the scanner registers from the first argument
    (none when the argument is missing). *)
Definition parsed_keyword_count (r : run) : nat :=
  g_keyword_count (parse_keywords_json (argv r !! 1) (seed_charsets initial_globals)).1.

(** ** Invariants *)

(** What every registry built by [append_keyword] satisfies: the keywords
    are non-empty lower-case C strings of at most 128 bytes, pairwise
    different, at most 512, and [g_max_keyword_len] is the length of the
    longest one (1 while there is none). *)
Record registry_ok (g : globals) : Prop := RegistryOk {
  reg_no_nul : Forall (fun kw => x00 ∉ kw) (g_keywords g);
  reg_nonempty : Forall (fun kw => kw ≠ []) (g_keywords g);
  reg_lower : Forall (Forall (fun c => C.tolower c = c)) (g_keywords g);
  reg_nodup : NoDup (g_keywords g);
  reg_count : g_keyword_count g ≤ MAX_KEYWORDS;
  reg_max : g_max_keyword_len g = Nat.max 1 (longest (g_keywords g));
  reg_bound : longest (g_keywords g) ≤ MAX_KEYWORD_LEN;
}.

(** What the two tables satisfy once [main] has seeded and widened them:
    no byte is in both, NUL is no token character, a delimiter is its own
    lower case, and the bytes of the keywords, whitespace apart, are token
    characters. *)
Record charsets_ok (g : globals) : Prop := CharsetsOk {
  cs_disjoint c :
    ¬ (tbl_get (g_allowed g) c = true ∧ tbl_get (g_delimiters g) c = true);
  cs_nul : tbl_get (g_allowed g) x00 = false;
  cs_delim_lower c : tbl_get (g_delimiters g) c = true -> C.tolower c = c;
  cs_keywords kw c :
    kw ∈ g_keywords g -> c ∈ kw -> is_keyword_whitespace c = false ->
    tbl_get (g_allowed g) c = true;
}.

(** The invariant of the running watcher. *)
Record engine_ok (g : globals) : Prop := EngineOk {
  ok_registry : registry_ok g;
  ok_charsets : charsets_ok g;
  ok_token_no_nul : x00 ∉ g_token g;
  ok_token_len : g_token_len g ≤ g_max_keyword_len g;
}.

(** ** Statements of the specification that the program does not satisfy
       as they are written *)

(** C1 as stated: a match fires at position [n] if and only if the run of
    token characters that ends there, trimmed to the longest keyword
    length, is a keyword. *)
Definition fires_iff_token_run_matches
    (texts : list (list byte)) (typed : list byte) (n : nat) : Prop :=
  let g := configure texts in
  n < length typed ->
  fires_at texts typed n
  <-> most_recent (longest (g_keywords g)) (token_run g (take (S n) typed))
      ∈ g_keywords g.

(** C2 as stated: for a registered keyword [k], typing [k], one backspace
    and the final character of [k] again emits exactly one match. *)
Definition backspace_retype_fires_once (texts : list (list byte)) (k : list byte) : Prop :=
  k ∈ g_keywords (configure texts) -> length (retype_matches texts k) = 1.

(** C3 as stated: after a token character the buffer holds at most
    [g_max_keyword_len] bytes, and when the append makes it longer the buffer
    is exactly the most recent [g_max_keyword_len] characters. *)
Definition buffer_is_most_recent (g : globals) (raw : byte) : Prop :=
  is_token_char g raw = true ->
  g_token_len (process_char raw g).1 ≤ g_max_keyword_len g
  ∧ (g_max_keyword_len g < length (g_token g ++ [C.tolower raw]) ->
     g_token (process_char raw g).1
     = most_recent (g_max_keyword_len g) (g_token g ++ [C.tolower raw])).


(** C10 as stated: for registered keywords [k1], a proper prefix of [k2],
    typing [k2] from start-up emits the match on [k1] at the last character
    of [k1], the buffer is empty there, and no match on [k2] is emitted. *)
Definition prefix_keyword_fires (texts : list (list byte)) (k1 k2 : list byte) : Prop :=
  let g := configure texts in
  k1 ∈ g_keywords g -> k2 ∈ g_keywords g -> proper_prefix k1 k2 ->
  (engine_run (type_text k2) g).2 !! (length k1 - 1) = Some [Keyword k1 NUL]
  ∧ g_token (engine_run (type_text k1) g).1 = []
  ∧ ∀ d, Keyword k2 d ∉ concat (engine_run (type_text k2) g).2.

(** ** Example inputs *)

(** The state the watcher is in after start-up with the given keywords and
    the given inputs. *)
Definition watcher_after (keywords : list string) (inputs : list engine_input) : globals :=
  (engine_run inputs (configure (C.bytes <$> keywords))).1.

Definition typing (text : string) : list engine_input := type_text (C.bytes text).

(** Keywords ab and xyz; x a b c typed, then one backspace: the buffer is ab. *)
Definition state_ab_in_buffer : globals :=
  watcher_after ["ab"; "xyz"] (typing "xabc" ++ [PressBackspace]).

(** Keyword sig; s i typed. *)
Definition state_si_typed : globals := watcher_after ["sig"] (typing "si").

(** Keyword abc; x a typed. *)
Definition state_abc_xa_typed : globals := watcher_after ["abc"] (typing "xa").

(** Keyword ab; x a typed. *)
Definition state_ab_xa_typed : globals := watcher_after ["ab"] (typing "xa").

(** A key-down of the C key while Ctrl is held. *)
Definition ctrl_c_event : key_event := KeyEvent 0x43 0x2e (-32768) 0 0 0 true 1 [3%Z].

(** Registries with [n] keywords: aa, ab, ..., az, ba, ... *)
Definition numbered_keyword (i : nat) : list byte :=
  [default x00 (Byte.of_nat (97 + i / 26)); default x00 (Byte.of_nat (97 + i mod 26))].

Definition numbered_registry (n : nat) : globals :=
  register_all (numbered_keyword <$> seq 0 n) initial_globals.

(** The argument ["sig"] in brackets, as the host passes it. *)
Definition json_sig : list byte := [x5b; x22] ++ C.bytes "sig" ++ [x22; x5d].

Definition run_without_arguments : run := Run [C.bytes "snippet-expander-win"] true [].
Definition run_without_hook : run := Run [C.bytes "snippet-expander-win"; json_sig] false [].

(** The keys S, I and G go down, then the message loop ends. *)
Definition run_until_shutdown : run :=
  Run [C.bytes "snippet-expander-win"; json_sig] true
    [HookCall 0 0x0100 (KeyEvent 0x53 0x1f 0 0 0 0 true 1 [115%Z]);
     HookCall 0 0x0100 (KeyEvent 0x49 0x17 0 0 0 0 true 1 [105%Z]);
     HookCall 0 0x0100 (KeyEvent 0x47 0x22 0 0 0 0 true 1 [103%Z])].


(** ** Output as text *)

(** [json_escape_char]: the C string that [snprintf] leaves in [out], a
    buffer of [out_size] bytes that the caller has zeroed.  A NUL character
    gives the empty string. *)
Definition json_escape_char (c : byte) (out_size : nat) : list byte :=
  if out_size =? 0 then []
  else
    take (out_size - 1)
      (if decide (c = x5c) then [x5c; x5c]
       else if decide (c = x22) then [x5c; x22]
       else if decide (c = x0a) then [x5c; "n"%byte]
       else if decide (c = x0d) then [x5c; "r"%byte]
       else if decide (c = x09) then [x5c; "t"%byte]
       else C.c_str [c]).

(** The line that [emit_ready], [emit_error] and [emit_keyword] print for a
    message; [delim_escaped] has 16 bytes. *)
Definition render (m : message) : list byte :=
  match m with
  | Ready =>
      C.bytes "{" ++ [x22] ++ C.bytes "ready" ++ [x22] ++ C.bytes ":true}" ++ [x0a]
  | Error msg =>
      C.bytes "{" ++ [x22] ++ C.bytes "error" ++ [x22] ++ C.bytes ":" ++ [x22]
      ++ C.bytes msg ++ [x22] ++ C.bytes "}" ++ [x0a]
  | Keyword keyword delimiter =>
      C.bytes "{" ++ [x22] ++ C.bytes "keyword" ++ [x22] ++ C.bytes ":" ++ [x22]
      ++ keyword ++ [x22] ++ C.bytes "," ++ [x22] ++ C.bytes "delimiter" ++ [x22]
      ++ C.bytes ":" ++ [x22] ++ json_escape_char delimiter 16 ++ [x22]
      ++ C.bytes "}" ++ [x0a]
  end.

(** ** The string literals of the argument *)

(** The scanner is at a closing quote. *)
Definition closes_string (s : scanner) (ch : byte) : bool :=
  in_string s && negb (escaped s) && bool_decide (ch = x22).

(** The scanning loop of [parse_keywords_json] with the texts it passes to
    [append_keyword] collected in order. *)
Definition collect_char (st : scanner * list (list byte)) (ch : byte)
  : scanner * list (list byte) :=
  ((scan_char (st.1, initial_globals) ch).1,
   if closes_string st.1 ch then st.2 ++ [current st.1] else st.2).

Definition scanned_texts (json : list byte) : list (list byte) :=
  (foldl collect_char (Scanner false false [], []) (C.c_str json)).2.

(** A string literal and an array of string literals, with the characters
    escaped the way [json_escape_char] escapes them. *)
Definition json_string (text : list byte) : list byte :=
  [x22] ++ concat ((fun c => json_escape_char c 16) <$> text) ++ [x22].

Definition json_array (texts : list (list byte)) : list byte :=
  match texts with
  | [] => C.bytes "[]"
  | t :: ts =>
      C.bytes "[" ++ json_string t
      ++ concat ((fun t => C.bytes "," ++ json_string t) <$> ts) ++ C.bytes "]"
  end.

(** ** More of the invariant of the running watcher

    Every byte of the buffer is a token character, and the four whitespace
    bytes that the widening pass skips are not. *)
Record buffer_ok (g : globals) : Prop := BufferOk {
  buf_allowed : Forall (fun c => tbl_get (g_allowed g) c = true) (g_token g);
  buf_whitespace c : is_keyword_whitespace c = true -> tbl_get (g_allowed g) c = false;
}.

(** The printable ASCII characters, with tab, line feed and carriage
    return. *)
Definition is_text_char (c : byte) : bool :=
  ((32 <=? Byte.to_N c) && (Byte.to_N c <=? 126))%N
  || bool_decide (c = x09) || bool_decide (c = x0a) || bool_decide (c = x0d).

(** The hook calls on which [keyboard_hook] acts: key-down messages with
    [nCode = HC_ACTION]. *)
Definition hook_acts (h : hook_call) : bool :=
  ((nCode h =? HC_ACTION) && ((wParam h =? WM_KEYDOWN) || (wParam h =? WM_SYSKEYDOWN)))%Z.

(** An input other than a backspace. *)
Definition is_backspace (i : engine_input) : bool :=
  match i with PressBackspace => true | _ => false end.

(** A key event that reaches [ToUnicodeEx] and decodes to no character: not
    VK_BACK, no modifier held, the key state read, and a return code of 0 or
    less (a bare Shift, a dead key). *)
Definition key_has_no_character (k : key_event) : bool :=
  negb (vk k =? VK_BACK)%Z && negb (is_modifier_down k) && keyboard_state_ok k
  && (to_unicode_rc k <=? 0)%Z.

(** The calls [process_key_event] makes to the layout engine. *)
Definition key_layout_calls (k : key_event) : list layout_call :=
  if (vk k =? VK_BACK)%Z then []
  else if is_modifier_down k then []
  else if negb (keyboard_state_ok k) then []
  else if (to_unicode_rc k <? 0)%Z then [Decode; Neutralize]
  else [Decode].

(** * hotkey-hold-monitor: the key-hold watcher of src/native/hotkey-hold-monitor.c *)
Module HoldMonitor.

(** Constants of <windows.h>. *)
Definition VK_TAB : Z := 0x09.
Definition VK_RETURN : Z := 0x0D.
Definition VK_ESCAPE : Z := 0x1B.
Definition VK_SPACE : Z := 0x20.
Definition VK_OEM_1 : Z := 0xBA.
Definition VK_OEM_PLUS : Z := 0xBB.
Definition VK_OEM_COMMA : Z := 0xBC.
Definition VK_OEM_MINUS : Z := 0xBD.
Definition VK_OEM_PERIOD : Z := 0xBE.
Definition VK_OEM_2 : Z := 0xBF.
Definition VK_OEM_3 : Z := 0xC0.
Definition VK_OEM_4 : Z := 0xDB.
Definition VK_OEM_5 : Z := 0xDC.
Definition VK_OEM_6 : Z := 0xDD.
Definition VK_OEM_7 : Z := 0xDE.
Definition WM_KEYUP : Z := 0x0101.
Definition WM_SYSKEYUP : Z := 0x0105.

(** [cg_to_vk]: the macOS key code to the Windows virtual key, -1 when
    there is none.  The letters and digits are their ASCII codes. *)
Definition cg_to_vk (cg : Z) : Z :=
  match cg with
  | 0 => 65 | 11 => 66 | 8 => 67 | 2 => 68 | 14 => 69 | 3 => 70 | 5 => 71
  | 4 => 72 | 34 => 73 | 38 => 74 | 40 => 75 | 37 => 76 | 46 => 77 | 45 => 78
  | 31 => 79 | 35 => 80 | 12 => 81 | 15 => 82 | 1 => 83 | 17 => 84 | 32 => 85
  | 9 => 86 | 13 => 87 | 7 => 88 | 16 => 89 | 6 => 90
  | 18 => 49 | 19 => 50 | 20 => 51 | 21 => 52 | 23 => 53 | 22 => 54 | 26 => 55
  | 28 => 56 | 25 => 57 | 29 => 48
  | 24 => VK_OEM_PLUS | 27 => VK_OEM_MINUS | 30 => VK_OEM_6 | 33 => VK_OEM_4
  | 39 => VK_OEM_7 | 41 => VK_OEM_1 | 42 => VK_OEM_5 | 43 => VK_OEM_COMMA
  | 44 => VK_OEM_2 | 47 => VK_OEM_PERIOD | 50 => VK_OEM_3
  | 36 => VK_RETURN | 48 => VK_TAB | 49 => VK_SPACE | 53 => VK_ESCAPE
  | _ => -1
  end%Z.

(** The globals; the three [g_need_*] and [g_pressed] hold 0 or 1. *)
Record globals : Type := Globals {
  g_vk : Z;
  g_need_ctrl : bool;
  g_need_alt : bool;
  g_need_shift : bool;
  g_pressed : bool;
}.

(** The lines [emit] prints. *)
Inductive line : Type :=
  | ReadyLine                 (* {"ready":true} *)
  | Pressed                   (* {"pressed":true} *)
  | ReleasedKeyUp             (* {"released":true,"reason":"key-up"} *)
  | ReleasedModifierUp        (* {"released":true,"reason":"modifier-up"} *)
  | ErrorLine (msg : string). (* {"error":..} *)

(** One call of the hook procedure, with what [GetAsyncKeyState] answers
    for VK_CONTROL, VK_MENU and VK_SHIFT. *)
Record hook_call : Type := HookCall {
  nCode : Z;
  wParam : Z;
  vkCode : Z;
  async_control : Z;
  async_menu : Z;
  async_shift : Z;
}.

(** [(int)kb->vkCode]: a DWORD read as a 32-bit int. *)
Definition to_int (dword : Z) : Z :=
  if (dword <? 2 ^ 31)%Z then dword else (dword - 2 ^ 32)%Z.

Definition mods_match (h : hook_call) (g : globals) : bool :=
  Bool.eqb (high_bit_set (async_control h)) (g_need_ctrl g)
  && Bool.eqb (high_bit_set (async_menu h)) (g_need_alt g)
  && Bool.eqb (high_bit_set (async_shift h)) (g_need_shift g).

(** [kbhook]: the new globals, the lines printed and the number of
    [PostQuitMessage] calls. *)
Definition kbhook (h : hook_call) (g : globals) : globals * list line * nat :=
  if (nCode h =? HC_ACTION)%Z then
    let vk := to_int (vkCode h) in
    if ((wParam h =? WM_KEYDOWN) || (wParam h =? WM_SYSKEYDOWN))%Z then
      if negb (g_pressed g) && (vk =? g_vk g)%Z && mods_match h g then
        (Globals (g_vk g) (g_need_ctrl g) (g_need_alt g) (g_need_shift g) true,
         [Pressed], 0)
      else (g, [], 0)
    else if ((wParam h =? WM_KEYUP) || (wParam h =? WM_SYSKEYUP))%Z then
      if g_pressed g then
        if (vk =? g_vk g)%Z then (g, [ReleasedKeyUp], 1)
        else if negb (mods_match h g) then (g, [ReleasedModifierUp], 1)
        else (g, [], 0)
      else (g, [], 0)
    else (g, [], 0)
  else (g, [], 0).

(** The hook calls in order, from given globals: the final globals, all the
    lines printed and the number of [PostQuitMessage] calls. *)
Definition hook_calls (calls : list hook_call) (g : globals) : globals * list line * nat :=
  foldl (fun st h =>
           let '(g, out, quits) := st in
           let '(g', out', quits') := kbhook h g in
           (g', out ++ out', quits + quits'))
        (g, [], 0) calls.

(** What the process meets: its arguments, what [atoi] returns for the
    first one, whether the hook is installed, and the hook calls delivered
    before the message loop ends. *)
Record run : Type := Run {
  argv : list (list byte);
  atoi_argv1 : Z;
  hook_installed : bool;
  delivered : list hook_call;
}.

(** [main]: the lines printed and the exit code. *)
Definition main (r : run) : list line * Z :=
  if length (argv r) <? 7 then
    ([ErrorLine "Usage: hotkey-hold-monitor cgKeyCode cmd ctrl alt shift fn"], 1%Z)
  else
    let cg_code := atoi_argv1 r in
    let need_ctrl := C.strcmp_eq (default [] (argv r !! 3)) (C.bytes "1") in
    let need_alt := C.strcmp_eq (default [] (argv r !! 4)) (C.bytes "1") in
    let need_shift := C.strcmp_eq (default [] (argv r !! 5)) (C.bytes "1") in
    let vk := cg_to_vk cg_code in
    if (vk <? 0)%Z then ([ErrorLine "Key code not supported on Windows"], 1%Z)
    else if negb (hook_installed r) then ([ErrorLine "SetWindowsHookEx failed"], 2%Z)
    else
      let g := Globals vk need_ctrl need_alt need_shift false in
      (ReadyLine :: (hook_calls (delivered r) g).1.2, 0%Z).

Definition is_released (l : line) : bool :=
  match l with ReleasedKeyUp | ReleasedModifierUp => true | _ => false end.

(** F with Ctrl required (F is key code 3): F goes down twice while Ctrl is
    held, then up. *)
Definition run_ctrl_f : run :=
  Run [C.bytes "hotkey-hold-monitor"; C.bytes "3"; C.bytes "0"; C.bytes "1";
       C.bytes "0"; C.bytes "0"; C.bytes "0"] 3 true
    [HookCall 0 0x0100 70 (-32768) 0 0;
     HookCall 0 0x0100 70 (-32768) 0 0;
     HookCall 0 0x0101 70 (-32768) 0 0].

End HoldMonitor.
(** * Properties *)

(** ** C strings and [tolower] *)

Lemma tolower_nul c : C.tolower c = x00 -> c = x00.
Proof. destruct c; vm_compute; congruence. Qed.

Lemma tolower_idem c : C.tolower (C.tolower c) = C.tolower c.
Proof. destruct c; reflexivity. Qed.

Lemma tolower_whitespace c :
  is_keyword_whitespace (C.tolower c) = is_keyword_whitespace c.
Proof. destruct c; reflexivity. Qed.

Lemma c_str_id s : x00 ∉ s -> C.c_str s = s.
Proof.
  induction s as [|c s IH]; simpl; [done|].
  intros Hs. apply not_elem_of_cons in Hs as [Hc Hs].
  case_decide; [congruence|]. by rewrite IH.
Qed.

Lemma c_str_no_nul s : x00 ∉ C.c_str s.
Proof.
  induction s as [|c s IH]; simpl; [apply not_elem_of_nil|].
  case_decide; [apply not_elem_of_nil|].
  apply not_elem_of_cons. split; [congruence|done].
Qed.

Lemma c_str_idem s : C.c_str (C.c_str s) = C.c_str s.
Proof. apply c_str_id, c_str_no_nul. Qed.

Lemma c_str_length s : length (C.c_str s) ≤ length s.
Proof.
  induction s as [|c s IH]; simpl; [done|].
  case_decide; simpl; lia.
Qed.

Lemma strcmp_eq_refl s : C.strcmp_eq s s = true.
Proof. by apply bool_decide_eq_true. Qed.

Lemma strcmp_eq_true a b : x00 ∉ a -> x00 ∉ b -> C.strcmp_eq a b = true <-> a = b.
Proof.
  intros Ha Hb. unfold C.strcmp_eq.
  rewrite bool_decide_eq_true, !c_str_id by done. done.
Qed.

(** ** The character tables *)

Lemma byte_to_nat_inj c c' : Byte.to_nat c = Byte.to_nat c' -> c = c'.
Proof.
  intros H. pose proof (Byte.of_to_nat c) as Hc.
  rewrite H, Byte.of_to_nat in Hc. congruence.
Qed.

Lemma tbl_set_length t c v : length (tbl_set t c v) = length t.
Proof. apply length_insert. Qed.

Lemma tbl_get_set t c c' v :
  length t = 256 ->
  tbl_get (tbl_set t c v) c' = if decide (c = c') then v else tbl_get t c'.
Proof.
  intros Hlen. unfold tbl_get, tbl_set.
  case_decide as Hc.
  - subst c'. rewrite list_lookup_insert_eq; [done|].
    pose proof (Byte.to_nat_bounded c). lia.
  - rewrite list_lookup_insert_ne; [done|].
    intros H. by apply Hc, byte_to_nat_inj.
Qed.

Lemma mark_cons c cs t : mark (c :: cs) t = mark cs (tbl_set t c true).
Proof. reflexivity. Qed.

Lemma mark_length cs t : length (mark cs t) = length t.
Proof.
  revert t. induction cs as [|c cs IH]; intros t; [done|].
  rewrite mark_cons, IH. apply tbl_set_length.
Qed.

Lemma tbl_get_mark cs t c :
  length t = 256 ->
  tbl_get (mark cs t) c = bool_decide (c ∈ cs) || tbl_get t c.
Proof.
  revert t. induction cs as [|c0 cs IH]; intros t Hlen.
  - done.
  - rewrite mark_cons, IH by (by rewrite tbl_set_length).
    rewrite tbl_get_set by done.
    rewrite (bool_decide_ext (c ∈ c0 :: cs) (c = c0 ∨ c ∈ cs)) by apply elem_of_cons.
    rewrite bool_decide_or.
    destruct (decide (c0 = c)) as [->|Hne].
    + rewrite (bool_decide_eq_true_2 (c = c)) by done. simpl. by rewrite orb_true_r.
    + by rewrite (bool_decide_eq_false_2 (c = c0)) by done.
Qed.

(** ** The copy loop of [append_keyword] *)

Lemma lower_copy_spec src room :
  lower_copy src room = C.tolower <$> take room (C.c_str src).
Proof.
  revert room. induction src as [|c src IH]; intros [|room]; simpl; try done.
  all: case_decide; try done. simpl. by rewrite IH.
Qed.

Lemma lower_copy_length src room : length (lower_copy src room) ≤ room.
Proof.
  rewrite lower_copy_spec, length_fmap, length_take. lia.
Qed.

Lemma lower_copy_no_nul src room : x00 ∉ lower_copy src room.
Proof.
  rewrite lower_copy_spec. intros (c & Hc & Hin)%list_elem_of_fmap.
  symmetry in Hc. apply tolower_nul in Hc. subst c.
  apply elem_of_take in Hin as (i & Hi & _).
  apply (c_str_no_nul src). eapply list_elem_of_lookup_2, Hi.
Qed.

Lemma lower_copy_lower src room : Forall (fun c => C.tolower c = c) (lower_copy src room).
Proof.
  rewrite lower_copy_spec. apply Forall_forall.
  intros c (c0 & -> & _)%list_elem_of_fmap. apply tolower_idem.
Qed.

(** ** Looking keywords up *)

Lemma keyword_scan_Some K text i :
  is_Some (keyword_scan K text i) <-> ∃ kw, kw ∈ K ∧ C.strcmp_eq kw text = true.
Proof.
  revert i. induction K as [|kw K IH]; intros i; simpl.
  - split; [intros [? ?]; done|intros (? & []%elem_of_nil & _)].
  - destruct (C.strcmp_eq kw text) eqn:E.
    + split; [|by eauto]. intros _. exists kw. split; [apply list_elem_of_here|done].
    + rewrite IH. split.
      * intros (kw' & Hin & Heq). exists kw'. split; [by apply list_elem_of_further|done].
      * intros (kw' & [->|Hin]%elem_of_cons & Heq); [congruence|eauto].
Qed.

Lemma existsb_strcmp K text :
  existsb (fun kw => C.strcmp_eq kw text) K = true
  <-> ∃ kw, kw ∈ K ∧ C.strcmp_eq kw text = true.
Proof.
  rewrite existsb_exists. split; intros (kw & Hin & Heq); exists kw.
  - by rewrite list_elem_of_In.
  - by rewrite <- list_elem_of_In.
Qed.

Lemma keyword_index_Some g text :
  Forall (fun kw => x00 ∉ kw) (g_keywords g) -> x00 ∉ text ->
  is_Some (keyword_index g text) <-> text ≠ [] ∧ text ∈ g_keywords g.
Proof.
  intros HK Htext. unfold keyword_index. rewrite c_str_id by done.
  destruct text as [|c text]; [split; [intros [? ?]; done|intros [? _]; done]|].
  rewrite keyword_scan_Some. split.
  - intros (kw & Hin & Heq). split; [done|].
    rewrite Forall_forall in HK.
    apply strcmp_eq_true in Heq; [by subst|by apply HK|done].
  - intros [_ Hin]. exists (c :: text). split; [done|apply strcmp_eq_refl].
Qed.

Lemma keyword_index_None g text :
  Forall (fun kw => x00 ∉ kw) (g_keywords g) -> x00 ∉ text ->
  keyword_index g text = None <-> ¬ (text ≠ [] ∧ text ∈ g_keywords g).
Proof.
  intros HK Htext. rewrite <- keyword_index_Some by done.
  destruct (keyword_index g text); split; try done.
  intros H. destruct H. by eexists.
Qed.

(** ** The registry invariant *)

Lemma longest_app K kw : longest (K ++ [kw]) = Nat.max (longest K) (length kw).
Proof.
  induction K as [|k K IH]; simpl; [lia|]. rewrite IH. lia.
Qed.

Lemma longest_ge K kw : kw ∈ K -> length kw ≤ longest K.
Proof.
  induction K as [|k K IH]; [intros []%elem_of_nil|].
  intros [->|Hin]%elem_of_cons; simpl; [lia|]. specialize (IH Hin). lia.
Qed.

Lemma longest_attained K : K ≠ [] -> ∃ kw, kw ∈ K ∧ length kw = longest K.
Proof.
  induction K as [|k K IH]; [done|]. intros _.
  destruct K as [|k' K].
  - exists k. split; [apply list_elem_of_here|simpl; lia].
  - destruct IH as (kw & Hin & Hlen); [done|].
    destruct (decide (length k ≤ longest (k' :: K))).
    + exists kw. split; [by apply list_elem_of_further|].
      change (longest (k :: k' :: K)) with (Nat.max (length k) (longest (k' :: K))). lia.
    + exists k. split; [apply list_elem_of_here|].
      change (longest (k :: k' :: K)) with (Nat.max (length k) (longest (k' :: K))). lia.
Qed.


Lemma registry_ok_initial : registry_ok initial_globals.
Proof.
  split; simpl; try apply Forall_nil; try done.
  - apply NoDup_nil_2.
  - unfold g_keyword_count, MAX_KEYWORDS. simpl. lia.
  - unfold MAX_KEYWORD_LEN. lia.
Qed.

Lemma registry_ok_seed g : registry_ok g -> registry_ok (seed_charsets g).
Proof. intros [? ? ? ? ? ? ?]. by split. Qed.

Lemma registry_ok_apply g :
  registry_ok g -> registry_ok (apply_keyword_chars_to_charsets g).
Proof. intros [? ? ? ? ? ? ?]. by split. Qed.

Lemma registry_ok_set_token g token : registry_ok g -> registry_ok (set_token g token).
Proof. intros [? ? ? ? ? ? ?]. by split. Qed.

Lemma append_keyword_ok src g :
  registry_ok g -> registry_ok (append_keyword src g).1.
Proof.
  intros Hg. destruct src as [src|]; [|done]. unfold append_keyword.
  destruct (MAX_KEYWORDS <=? g_keyword_count g) eqn:Hfull; [done|].
  apply Nat.leb_gt in Hfull.
  pose proof (lower_copy_length src MAX_KEYWORD_LEN) as Hlen.
  pose proof (lower_copy_no_nul src MAX_KEYWORD_LEN) as Hnul.
  pose proof (lower_copy_lower src MAX_KEYWORD_LEN) as Hlow.
  set (buf := lower_copy src MAX_KEYWORD_LEN) in *.
  destruct (length buf =? 0) eqn:Hn; [done|]. apply Nat.eqb_neq in Hn.
  destruct (existsb _ _) eqn:Hdup; [done|].
  destruct Hg as [H1 H2 H3 H4 H5 H6 H7].
  split; simpl.
  - apply Forall_app. split; [done|]. by apply Forall_singleton.
  - apply Forall_app. split; [done|]. apply Forall_singleton. by destruct buf.
  - apply Forall_app. split; [done|]. by apply Forall_singleton.
  - apply NoDup_app. split; [done|]. split; [|apply NoDup_singleton].
    intros kw Hin ->%list_elem_of_singleton.
    assert (existsb (fun kw => C.strcmp_eq kw buf) (g_keywords g) = true) as Hex; [|congruence].
    apply existsb_strcmp. exists buf. split; [done|apply strcmp_eq_refl].
  - unfold g_keyword_count in *. simpl. rewrite length_app. simpl. lia.
  - rewrite longest_app, H6. destruct (_ <? _) eqn:E.
    + apply Nat.ltb_lt in E. lia.
    + apply Nat.ltb_ge in E. lia.
  - rewrite longest_app. lia.
Qed.

Lemma register_all_ok texts g : registry_ok g -> registry_ok (register_all texts g).
Proof.
  revert g. induction texts as [|t texts IH]; intros g Hg; [done|].
  apply IH. by apply append_keyword_ok.
Qed.

(** ** The widening pass *)

Section widening.
Implicit Types (a d : list bool) (c b : byte).

Lemma widen_char_length a d b :
  length a = 256 -> length d = 256 ->
  length (widen_char (a, d) b).1 = 256 ∧ length (widen_char (a, d) b).2 = 256.
Proof.
  intros Ha Hd. unfold widen_char. simpl.
  destruct (is_keyword_whitespace _); simpl; by rewrite ?tbl_set_length.
Qed.

Lemma widen_char_get a d b c :
  length a = 256 -> length d = 256 ->
  tbl_get (widen_char (a, d) b).1 c = tbl_get a c || widens_on c b
  ∧ tbl_get (widen_char (a, d) b).2 c = tbl_get d c && negb (widens_on c b).
Proof.
  intros Ha Hd. unfold widen_char, widens_on. simpl.
  destruct (decide (C.tolower b = c)) as [<-|Hne].
  - rewrite bool_decide_eq_true_2 by done.
    destruct (is_keyword_whitespace _); simpl.
    + by rewrite orb_false_r, andb_true_r.
    + rewrite !tbl_get_set by done. rewrite !decide_True by done.
      by rewrite orb_true_r, andb_false_r.
  - rewrite bool_decide_eq_false_2 by done. simpl.
    rewrite orb_false_r, andb_true_r.
    destruct (is_keyword_whitespace (C.tolower b)); simpl; [done|].
    rewrite !tbl_get_set by done. by rewrite !decide_False by done.
Qed.

Lemma widen_chars_get bs a d c :
  length a = 256 -> length d = 256 ->
  let t := foldl widen_char (a, d) bs in
  length t.1 = 256 ∧ length t.2 = 256
  ∧ tbl_get t.1 c = tbl_get a c || existsb (widens_on c) bs
  ∧ tbl_get t.2 c = tbl_get d c && negb (existsb (widens_on c) bs).
Proof.
  revert a d. induction bs as [|b bs IH]; intros a d Ha Hd; simpl.
  - by rewrite orb_false_r, andb_true_r.
  - destruct (widen_char_length a d b Ha Hd) as [Ha' Hd'].
    destruct (widen_char_get a d b c Ha Hd) as [Hga Hgd].
    destruct (widen_char (a, d) b) as [a' d'] eqn:E. simpl in *.
    destruct (IH a' d' Ha' Hd') as (? & ? & -> & ->).
    rewrite Hga, Hgd. repeat split; [done|done| |].
    + by rewrite orb_assoc.
    + rewrite negb_orb. by rewrite andb_assoc.
Qed.

Lemma widen_keywords_get K a d c :
  length a = 256 -> length d = 256 ->
  let t := foldl widen_keyword (a, d) K in
  length t.1 = 256 ∧ length t.2 = 256
  ∧ tbl_get t.1 c = tbl_get a c || widened K c
  ∧ tbl_get t.2 c = tbl_get d c && negb (widened K c).
Proof.
  revert a d. induction K as [|kw K IH]; intros a d Ha Hd; simpl.
  - by rewrite orb_false_r, andb_true_r.
  - destruct (widen_chars_get (C.c_str kw) a d c Ha Hd) as (Ha' & Hd' & Hga & Hgd).
    unfold widen_keyword at 2 4 6 8.
    destruct (foldl widen_char (a, d) (C.c_str kw)) as [a' d'] eqn:E. simpl in *.
    destruct (IH a' d' Ha' Hd') as (? & ? & -> & ->).
    rewrite Hga, Hgd. repeat split; [done|done| |].
    + by rewrite orb_assoc.
    + rewrite negb_orb. by rewrite andb_assoc.
Qed.

End widening.

Lemma widened_elem K kw c :
  kw ∈ K -> c ∈ C.c_str kw -> is_keyword_whitespace (C.tolower c) = false ->
  widened K (C.tolower c) = true.
Proof.
  intros Hkw Hc Hws. unfold widened. apply existsb_exists.
  exists kw. split; [by apply list_elem_of_In|].
  apply existsb_exists. exists c. split; [by apply list_elem_of_In|].
  unfold widens_on. by rewrite bool_decide_eq_true_2, Hws.
Qed.

Lemma widened_inv K c :
  widened K c = true ->
  ∃ kw b, kw ∈ K ∧ b ∈ C.c_str kw ∧ C.tolower b = c ∧ is_keyword_whitespace c = false.
Proof.
  unfold widened. intros (kw & Hkw & (b & Hb & Hw)%existsb_exists)%existsb_exists.
  exists kw, b. unfold widens_on in Hw.
  apply andb_true_iff in Hw as [Heq%bool_decide_eq_true Hws%negb_true_iff].
  by rewrite !list_elem_of_In.
Qed.

Lemma seed_charsets_length g :
  length (g_allowed (seed_charsets g)) = 256 ∧ length (g_delimiters (seed_charsets g)) = 256.
Proof. done. Qed.

Lemma seed_charsets_disjoint g c :
  ¬ (tbl_get (g_allowed (seed_charsets g)) c = true
     ∧ tbl_get (g_delimiters (seed_charsets g)) c = true).
Proof. destruct c; vm_compute; intros [? ?]; congruence. Qed.

(** C6: after [seed_charsets] and [apply_keyword_chars_to_charsets], for any
    keywords in the registry, no byte is both a token character and a
    delimiter; the widening pass sets [g_allowed] and clears [g_delimiters]
    exactly on the lower-cased bytes of the keywords that are not
    whitespace, and changes no other entry. *)
Theorem classifier_disjoint_after_widening (g : globals) (c : byte) :
  let seeded := seed_charsets g in
  let final := apply_keyword_chars_to_charsets seeded in
  ¬ (tbl_get (g_allowed final) c = true ∧ tbl_get (g_delimiters final) c = true)
  ∧ tbl_get (g_allowed final) c
    = tbl_get (g_allowed seeded) c || widened (g_keywords g) c
  ∧ tbl_get (g_delimiters final) c
    = tbl_get (g_delimiters seeded) c && negb (widened (g_keywords g) c).
Proof.
  intros seeded final.
  destruct (seed_charsets_length g) as [Ha Hd].
  destruct (widen_keywords_get (g_keywords g) _ _ c Ha Hd) as (_ & _ & Hga & Hgd).
  assert (tbl_get (g_allowed final) c
          = tbl_get (g_allowed seeded) c || widened (g_keywords g) c) as Ea by exact Hga.
  assert (tbl_get (g_delimiters final) c
          = tbl_get (g_delimiters seeded) c && negb (widened (g_keywords g) c)) as Ed
    by exact Hgd.
  split; [|by split].
  rewrite Ea, Ed. intros [H1 H2].
  apply andb_true_iff in H2 as [H2 H3]. apply negb_true_iff in H3.
  rewrite H3, orb_false_r in H1.
  by apply (seed_charsets_disjoint g c).
Qed.

(** ** The invariant holds in every reachable state *)

Lemma set_token_id g : set_token g (g_token g) = g.
Proof. by destruct g. Qed.

Lemma most_recent_length {A} n (l : list A) : length (most_recent n l) = Nat.min n (length l).
Proof. unfold most_recent. rewrite length_drop. lia. Qed.

Lemma most_recent_all {A} n (l : list A) : length l ≤ n -> most_recent n l = l.
Proof. intros H. unfold most_recent. by replace (length l - n) with 0 by lia. Qed.

Lemma most_recent_elem {A} n (l : list A) x : x ∈ most_recent n l -> x ∈ l.
Proof. apply subseteq_drop. Qed.

Lemma trim_token_to_max_spec g :
  trim_token_to_max g = set_token g (most_recent (g_max_keyword_len g) (g_token g)).
Proof.
  unfold trim_token_to_max, g_token_len.
  destruct (_ <=? _) eqn:E.
  - apply Nat.leb_le in E. by rewrite most_recent_all, set_token_id.
  - apply Nat.leb_gt in E. unfold most_recent. f_equal.
    apply take_ge. rewrite length_drop. lia.
Qed.

Lemma register_all_cons t texts g :
  register_all (t :: texts) g = register_all texts (append_keyword (Some t) g).1.
Proof. reflexivity. Qed.

Lemma append_keyword_tables src g :
  g_allowed (append_keyword src g).1 = g_allowed g
  ∧ g_delimiters (append_keyword src g).1 = g_delimiters g
  ∧ g_token (append_keyword src g).1 = g_token g.
Proof.
  destruct src as [src|]; [|done]. unfold append_keyword.
  repeat (match goal with |- context [if ?b then _ else _] => destruct b end; simpl; try done).
Qed.

Lemma register_all_tables texts g :
  g_allowed (register_all texts g) = g_allowed g
  ∧ g_delimiters (register_all texts g) = g_delimiters g
  ∧ g_token (register_all texts g) = g_token g.
Proof.
  revert g. induction texts as [|t texts IH]; intros g; [done|].
  rewrite register_all_cons.
  destruct (IH (append_keyword (Some t) g).1) as (-> & -> & ->).
  apply append_keyword_tables.
Qed.

Lemma configure_registry texts :
  g_keywords (configure texts) = g_keywords (register_all texts initial_globals)
  ∧ g_max_keyword_len (configure texts)
    = g_max_keyword_len (register_all texts initial_globals).
Proof.
  unfold configure. simpl.
  generalize (seed_charsets initial_globals), initial_globals.
  assert (∀ g g', g_keywords g = g_keywords g' -> g_max_keyword_len g = g_max_keyword_len g' ->
      g_keywords (register_all texts g) = g_keywords (register_all texts g')
      ∧ g_max_keyword_len (register_all texts g) = g_max_keyword_len (register_all texts g'))
    as H; [|intros; by apply H].
  induction texts as [|t texts IH]; intros g g' HK Hm; [done|].
  rewrite !register_all_cons. apply IH; unfold append_keyword, g_keyword_count; rewrite HK, Hm;
    repeat (match goal with |- context [if ?b then _ else _] => destruct b end; simpl; try done);
    by rewrite ?HK.
Qed.

Lemma apply_keyword_chars_get g c :
  length (g_allowed g) = 256 -> length (g_delimiters g) = 256 ->
  tbl_get (g_allowed (apply_keyword_chars_to_charsets g)) c
  = tbl_get (g_allowed g) c || widened (g_keywords g) c
  ∧ tbl_get (g_delimiters (apply_keyword_chars_to_charsets g)) c
    = tbl_get (g_delimiters g) c && negb (widened (g_keywords g) c).
Proof.
  intros Ha Hd.
  by destruct (widen_keywords_get (g_keywords g) _ _ c Ha Hd) as (_ & _ & ? & ?).
Qed.

Lemma configure_token texts : g_token (configure texts) = [].
Proof.
  unfold configure. simpl.
  by destruct (register_all_tables texts (seed_charsets initial_globals)) as (_ & _ & ->).
Qed.

Lemma configure_ok texts : engine_ok (configure texts).
Proof.
  assert (registry_ok (configure texts)) as Hreg.
  { apply registry_ok_apply, register_all_ok, registry_ok_seed, registry_ok_initial. }
  split; [done| |rewrite configure_token; apply not_elem_of_nil|].
  - unfold configure. set (g := register_all texts (seed_charsets initial_globals)) in *.
    destruct (register_all_tables texts (seed_charsets initial_globals)) as (Ha & Hd & _).
    fold g in Ha, Hd.
    assert (∀ c,
      tbl_get (g_allowed (apply_keyword_chars_to_charsets g)) c
      = tbl_get (g_allowed (seed_charsets initial_globals)) c || widened (g_keywords g) c
      ∧ tbl_get (g_delimiters (apply_keyword_chars_to_charsets g)) c
        = tbl_get (g_delimiters (seed_charsets initial_globals)) c
          && negb (widened (g_keywords g) c)) as Hget.
    { intros c. rewrite <- Ha, <- Hd. apply apply_keyword_chars_get.
      - rewrite Ha. apply seed_charsets_length.
      - rewrite Hd. apply seed_charsets_length. }
    split.
    + intros c [H1 H2]. destruct (Hget c) as [E1 E2]. rewrite E1 in H1. rewrite E2 in H2.
      apply andb_true_iff in H2 as [H2 H3]. apply negb_true_iff in H3.
      rewrite H3, orb_false_r in H1.
      by apply (seed_charsets_disjoint initial_globals c).
    + destruct (Hget x00) as [-> _]. simpl.
      destruct (widened (g_keywords g) x00) eqn:E; [|done].
      apply widened_inv in E as (kw & b & _ & Hb & ->%tolower_nul & _).
      by apply c_str_no_nul in Hb.
    + intros c H. destruct (Hget c) as [_ E]. rewrite E in H.
      apply andb_true_iff in H as [H _]. revert H. clear.
      destruct c; vm_compute; congruence.
    + intros kw c Hkw Hc Hws. destruct (Hget c) as [-> _].
      destruct Hreg as [Hnul _ Hlow _ _ _ _]. simpl in Hnul, Hlow.
      rewrite Forall_forall in Hnul. rewrite Forall_forall in Hlow.
      specialize (Hlow kw Hkw). rewrite Forall_forall in Hlow.
      rewrite <- (Hlow c Hc). rewrite (widened_elem _ kw); [by rewrite orb_true_r|done| |].
      * rewrite c_str_id; [done|by apply Hnul].
      * by rewrite Hlow.
  - unfold g_token_len. rewrite configure_token. simpl. lia.
Qed.

(** ** What [process_char] does in each class of character *)

Lemma most_recent_nonempty {A} n (l : list A) : 1 ≤ n -> l ≠ [] -> most_recent n l ≠ [].
Proof.
  intros Hn Hl H. apply (f_equal length) in H.
  rewrite most_recent_length in H. destruct l; [done|]. simpl in H. lia.
Qed.

Lemma registry_max_pos g : registry_ok g -> 1 ≤ g_max_keyword_len g ≤ MAX_KEYWORD_LEN.
Proof.
  intros [_ _ _ _ _ Hmax Hb]. rewrite Hmax. unfold MAX_KEYWORD_LEN in *. lia.
Qed.

Lemma token_below_limit g : engine_ok g -> g_token_len g < MAX_TOKEN_LEN.
Proof.
  intros [Hreg _ _ Hlen]. apply registry_max_pos in Hreg.
  unfold MAX_KEYWORD_LEN, MAX_TOKEN_LEN in *. lia.
Qed.

Lemma candidate_no_nul g raw :
  engine_ok g -> is_token_char g raw = true ->
  x00 ∉ most_recent (g_max_keyword_len g) (g_token g ++ [C.tolower raw]).
Proof.
  intros [_ Hcs Hnul _] Htok Hin.
  apply most_recent_elem, elem_of_app in Hin as [Hin|Hin%list_elem_of_singleton]; [done|].
  unfold is_token_char in Htok. rewrite <- Hin in Htok.
  by rewrite (cs_nul _ Hcs) in Htok.
Qed.

(** A token character: the candidate is the most recent
    [g_max_keyword_len] bytes of the buffer with the character appended; it
    is emitted and the buffer cleared when it is a keyword, and it becomes
    the buffer when it is not. *)
Lemma process_char_token g raw :
  engine_ok g -> is_token_char g raw = true ->
  let candidate := most_recent (g_max_keyword_len g) (g_token g ++ [C.tolower raw]) in
  process_char raw g =
    if decide (candidate ∈ g_keywords g)
    then (clear_token g, [Keyword candidate NUL])
    else (set_token g candidate, []).
Proof.
  intros Hok Htok candidate.
  pose proof (candidate_no_nul g raw Hok Htok) as Hnul. fold candidate in Hnul.
  pose proof (token_below_limit g Hok) as Hlim.
  destruct Hok as [Hreg Hcs Htnul Hlen].
  unfold process_char. unfold is_token_char in Htok. rewrite Htok.
  apply Nat.ltb_lt in Hlim. rewrite Hlim.
  rewrite trim_token_to_max_spec. cbn [set_token g_token g_max_keyword_len].
  fold candidate.
  assert (candidate ≠ []) as Hne.
  { apply most_recent_nonempty; [by apply registry_max_pos|by destruct (g_token g)]. }
  destruct (keyword_index _ candidate) as [i|] eqn:E.
  - assert (candidate ≠ [] ∧ candidate ∈ g_keywords g) as [_ Hin].
    { apply (keyword_index_Some (set_token (set_token g (g_token g ++ [C.tolower raw])) candidate));
        [apply Hreg|done|by rewrite E]. }
    rewrite decide_True by done. unfold emit_keyword. by rewrite c_str_id.
  - apply keyword_index_None in E; [|apply Hreg|done]. cbn [set_token g_keywords] in E.
    rewrite decide_False by tauto. done.
Qed.

(** A delimiter: the buffer is emitted with the delimiter when it is a
    keyword, and cleared. *)
Lemma process_char_delimiter g raw :
  engine_ok g -> is_delimiter_char g raw = true ->
  process_char raw g =
    (clear_token g,
     if decide (g_token g ∈ g_keywords g)
     then [Keyword (g_token g) (C.tolower raw)] else []).
Proof.
  intros [Hreg Hcs Htnul Hlen] Hd. unfold is_delimiter_char in Hd.
  apply andb_true_iff in Hd as [Ha%negb_true_iff Hd].
  unfold process_char. rewrite Ha, Hd. f_equal.
  destruct (decide (g_token g ∈ g_keywords g)) as [Hin|Hin].
  - assert (g_token g ≠ []) as Hne.
    { destruct Hreg as [_ Hne _ _ _ _ _]. rewrite Forall_forall in Hne. by apply Hne. }
    assert (is_Some (keyword_index g (g_token g))) as HS.
    { apply keyword_index_Some; [apply Hreg|done|done]. }
    rewrite (bool_decide_eq_true_2 _ HS).
    replace (0 <? g_token_len g) with true.
    + simpl. unfold emit_keyword. by rewrite c_str_id.
    + symmetry. apply Nat.ltb_lt. unfold g_token_len. destruct (g_token g); [done|simpl; lia].
  - rewrite (bool_decide_eq_false_2 (is_Some (keyword_index g (g_token g)))).
    + by rewrite andb_false_r.
    + rewrite keyword_index_Some; [tauto|apply Hreg|done].
Qed.

(** Any other character clears the buffer. *)
Lemma process_char_other g raw :
  is_token_char g raw = false -> is_delimiter_char g raw = false ->
  process_char raw g = (clear_token g, []).
Proof.
  unfold is_token_char, is_delimiter_char, process_char. intros -> H.
  simpl in H. by rewrite H.
Qed.

(** ** Reachable states *)

Lemma engine_ok_set_token g token :
  engine_ok g -> x00 ∉ token -> length token ≤ g_max_keyword_len g ->
  engine_ok (set_token g token).
Proof.
  intros [Hreg [? ? ? ?] _ _] Hnul Hlen. split; [by apply registry_ok_set_token|by split|done|done].
Qed.

Lemma engine_ok_clear g : engine_ok g -> engine_ok (clear_token g).
Proof.
  intros H. apply engine_ok_set_token; [done|apply not_elem_of_nil|simpl; lia].
Qed.

Lemma process_char_ok raw g : engine_ok g -> engine_ok (process_char raw g).1.
Proof.
  intros Hok. destruct (is_token_char g raw) eqn:Htok.
  - rewrite process_char_token by done. case_decide; simpl.
    + by apply engine_ok_clear.
    + apply engine_ok_set_token; [done|by apply candidate_no_nul|].
      rewrite most_recent_length. lia.
  - destruct (is_delimiter_char g raw) eqn:Hd.
    + rewrite process_char_delimiter by done. by apply engine_ok_clear.
    + rewrite process_char_other by done. by apply engine_ok_clear.
Qed.

Lemma backspace_ok g : engine_ok g -> engine_ok (backspace g).
Proof.
  intros Hok. unfold backspace. destruct (0 <? g_token_len g); [|done].
  apply engine_ok_set_token; [done| |].
  - intros Hin. apply (ok_token_no_nul g Hok). by eapply subseteq_take.
  - rewrite length_take. pose proof (ok_token_len g Hok). unfold g_token_len in *. lia.
Qed.

Lemma engine_step_ok i g : engine_ok g -> engine_ok (engine_step i g).1.
Proof.
  destruct i; simpl; auto using process_char_ok, backspace_ok, engine_ok_clear.
Qed.

Lemma reachable_ok g : reachable g -> engine_ok g.
Proof.
  induction 1 as [texts|i g _ IH]; [apply configure_ok|by apply engine_step_ok].
Qed.

Lemma reachable_run inputs g : reachable g -> reachable (engine_run inputs g).1.
Proof.
  revert g. induction inputs as [|i inputs IH]; intros g Hg; [done|].
  simpl. pose proof (reachable_step i g Hg) as Hstep.
  destruct (engine_step i g) as [g1 out]. specialize (IH g1 Hstep).
  by destruct (engine_run inputs g1).
Qed.

(** ** Delimiters (C4) *)

Lemma delimiter_classified g d :
  engine_ok g -> tbl_get (g_delimiters g) d = true ->
  C.tolower d = d ∧ is_delimiter_char g d = true.
Proof.
  intros [_ Hcs _ _] Hd. pose proof (cs_delim_lower g Hcs d Hd) as Hlow.
  split; [done|]. unfold is_delimiter_char. rewrite Hlow, Hd.
  destruct (tbl_get (g_allowed g) d) eqn:Ha; [|done].
  by destruct (cs_disjoint g Hcs d).
Qed.

(** C4: in every engine state, that is every state that satisfies the
    invariant [engine_ok] of the watcher, whether a run leads to it or not,
    processing a character [d] that the classifier holds as a delimiter
    emits exactly one keyword match, carrying the buffer as the keyword and
    [d] as the delimiter, when the buffer is non-empty and equals a
    registered keyword, emits nothing otherwise, and leaves the buffer
    empty in both cases. *)
Theorem delimiter_emits_match_and_clears (g : globals) (d : byte) :
  engine_ok g ->
  tbl_get (g_delimiters g) d = true ->
  process_char d g =
    (clear_token g,
     if decide (g_token g ≠ [] ∧ g_token g ∈ g_keywords g)
     then [Keyword (g_token g) d] else [])
  ∧ g_token (process_char d g).1 = [].
Proof.
  intros Hok Hd.
  destruct (delimiter_classified g d Hok Hd) as [Hlow Hcls].
  rewrite process_char_delimiter, Hlow by done. split; [|done]. f_equal.
  destruct (decide (g_token g ∈ g_keywords g)) as [Hin|Hin].
  - rewrite decide_True; [done|]. split; [|done].
    destruct Hok as [[_ Hne _ _ _ _ _] _ _ _]. rewrite Forall_forall in Hne. by apply Hne.
  - rewrite decide_False; [done|tauto].
Qed.

Lemma delimiter_emits_match_and_clears_witness :
  g_token state_ab_in_buffer = C.bytes "ab"
  ∧ C.bytes "ab" ∈ g_keywords state_ab_in_buffer
  ∧ process_char " " state_ab_in_buffer =
      (clear_token state_ab_in_buffer, [Keyword (C.bytes "ab") " "])
  ∧ g_token (process_char " " state_ab_in_buffer).1 = [].
Proof.
  assert (g_token state_ab_in_buffer = C.bytes "ab") as Htoken by reflexivity.
  assert (C.bytes "ab" ∈ g_keywords state_ab_in_buffer) as Hin
    by (apply (bool_decide_unpack _); vm_compute; exact I).
  destruct (delimiter_emits_match_and_clears state_ab_in_buffer " ")
    as [Hout Hclear].
  - apply reachable_ok, reachable_run, reachable_configure.
  - reflexivity.
  - split; [exact Htoken|]. split; [exact Hin|]. split; [|exact Hclear].
    rewrite Hout, decide_True; [by rewrite Htoken|].
    rewrite Htoken. split; [discriminate|exact Hin].
Defined.

(** ** Modifier chords (C7) *)

(** C7: when the key is not VK_BACK and one of Ctrl, Alt, left Win or right
    Win is down (the high bit of its [GetAsyncKeyState] result is set), the
    key event clears the token buffer, emits nothing, appends nothing and
    makes no call to the layout decoder. *)
Theorem modifier_held_clears_without_decoding (k : key_event) (g : globals) :
  vk k ≠ VK_BACK ->
  high_bit_set (async_control k) = true ∨ high_bit_set (async_menu k) = true
  ∨ high_bit_set (async_lwin k) = true ∨ high_bit_set (async_rwin k) = true ->
  process_key_event k g = (clear_token g, [], [])
  ∧ g_token (process_key_event k g).1.1 = [].
Proof.
  intros Hvk Hmod. unfold process_key_event.
  apply Z.eqb_neq in Hvk. rewrite Hvk.
  assert (is_modifier_down k = true) as ->; [|done].
  unfold is_modifier_down.
  destruct Hmod as [->|[H|[H|H]]]; [done| | |];
    repeat (match goal with |- context [if ?b then _ else _] => destruct b end; try done).
Qed.

Lemma modifier_held_clears_without_decoding_witness :
  process_key_event ctrl_c_event state_si_typed = (clear_token state_si_typed, [], [])
  ∧ g_token (process_key_event ctrl_c_event state_si_typed).1.1 = [].
Proof.
  apply (modifier_held_clears_without_decoding ctrl_c_event state_si_typed).
  - unfold ctrl_c_event, VK_BACK. simpl. lia.
  - left. reflexivity.
Defined.

(** ** The bound on the token buffer (C3) *)

Lemma process_char_token_len g raw :
  g_token_len (process_char raw g).1 ≤ g_max_keyword_len g.
Proof.
  unfold process_char, g_token_len.
  destruct (tbl_get (g_allowed g) _); [|destruct (tbl_get (g_delimiters g) _); simpl; lia].
  rewrite trim_token_to_max_spec.
  match goal with |- context [keyword_index ?a ?b] => destruct (keyword_index a b) end;
    cbn [fst clear_token set_token g_token g_max_keyword_len length]; [lia|].
  rewrite most_recent_length.
  destruct (_ <? _); cbn [set_token g_max_keyword_len]; lia.
Qed.

(** C3, as amended: after a token character the buffer holds at most
    [g_max_keyword_len] bytes, in every state.  When the buffer is below its
    capacity of 512 bytes (as it is in every reachable state), the candidate
    compared with the keywords is exactly the most recent
    [g_max_keyword_len] bytes of the buffer with the character appended,
    oldest dropped; it stays as the buffer unless it is a registered
    keyword, and then the buffer is cleared. *)
Theorem token_buffer_keeps_most_recent (g : globals) (raw : byte) :
  is_token_char g raw = true ->
  let appended := g_token g ++ [C.tolower raw] in
  let kept := most_recent (g_max_keyword_len g) appended in
  let g' := (process_char raw g).1 in
  g_token_len g' ≤ g_max_keyword_len g
  ∧ (g_token_len g < MAX_TOKEN_LEN ->
     length kept = Nat.min (g_max_keyword_len g) (length appended)
     ∧ kept `suffix_of` appended
     ∧ g_token g' = match keyword_index g kept with Some _ => [] | None => kept end).
Proof.
  intros Htok appended kept g'. split; [apply process_char_token_len|].
  intros Hlim. split; [apply most_recent_length|]. split; [apply suffix_drop|].
  unfold g', process_char. unfold is_token_char in Htok. rewrite Htok.
  apply Nat.ltb_lt in Hlim. rewrite Hlim, trim_token_to_max_spec.
  cbn [set_token g_token g_max_keyword_len]. fold appended. fold kept.
  change (keyword_index (set_token (set_token g appended) kept) kept)
    with (keyword_index g kept).
  by destruct (keyword_index g kept).
Qed.

Lemma token_buffer_keeps_most_recent_witness :
  g_token_len (process_char "b" state_abc_xa_typed).1 ≤ g_max_keyword_len state_abc_xa_typed
  ∧ g_token_len state_abc_xa_typed < MAX_TOKEN_LEN
  ∧ g_token (process_char "b" state_abc_xa_typed).1 = C.bytes "xab".
Proof.
  destruct (token_buffer_keeps_most_recent state_abc_xa_typed "b" eq_refl) as [Hlen Hkept].
  assert (g_token_len state_abc_xa_typed < MAX_TOKEN_LEN) as Hlim by (vm_compute; lia).
  destruct (Hkept Hlim) as (_ & _ & Htoken).
  split; [exact Hlen|]. split; [exact Hlim|]. rewrite Htoken. reflexivity.
Defined.

Lemma state_ab_xa_typed_reachable : reachable state_ab_xa_typed.
Proof. apply reachable_run, reachable_configure. Qed.

(** C3, as stated, fails when the trimmed buffer is a keyword: with the one
    keyword ab and the buffer xa, the character b would make the buffer
    longer than [g_max_keyword_len] = 2, and the buffer afterwards is empty,
    not the most recent two characters. *)
Lemma buffer_is_most_recent_counterexample :
  ¬ buffer_is_most_recent state_ab_xa_typed "b".
Proof.
  intros H. destruct (H eq_refl) as [_ H2].
  assert (g_max_keyword_len state_ab_xa_typed
          < length (g_token state_ab_xa_typed ++ [C.tolower "b"])) as Hlen
    by (vm_compute; lia).
  specialize (H2 Hlen). vm_compute in H2. discriminate H2.
Qed.

(** ** Registration (C5, C9) *)

Lemma append_keyword_full src g :
  MAX_KEYWORDS ≤ g_keyword_count g -> append_keyword src g = (g, false).
Proof.
  intros H. destruct src as [src|]; [|done]. unfold append_keyword.
  apply Nat.leb_le in H. by rewrite H.
Qed.

Lemma append_keyword_count src g :
  g_keyword_count g ≤ MAX_KEYWORDS -> g_keyword_count (append_keyword src g).1 ≤ MAX_KEYWORDS.
Proof.
  intros H. destruct src as [src|]; [|done]. unfold append_keyword.
  destruct (MAX_KEYWORDS <=? g_keyword_count g) eqn:Hfull; [done|].
  apply Nat.leb_gt in Hfull.
  destruct (_ =? 0); [done|]. destruct (existsb _ _); [done|].
  unfold g_keyword_count in *. simpl. rewrite length_app. simpl. lia.
Qed.

Lemma register_all_count texts g :
  g_keyword_count g ≤ MAX_KEYWORDS -> g_keyword_count (register_all texts g) ≤ MAX_KEYWORDS.
Proof.
  revert g. induction texts as [|t texts IH]; intros g H; [done|].
  rewrite register_all_cons. by apply IH, append_keyword_count.
Qed.

Lemma register_all_full texts g :
  MAX_KEYWORDS ≤ g_keyword_count g -> register_all texts g = g.
Proof.
  intros H. induction texts as [|t texts IH]; [done|].
  by rewrite register_all_cons, append_keyword_full.
Qed.

(** C9: a registry of at most 512 keywords stays at most 512 under any
    sequence of registrations, and once it holds 512 every further
    [append_keyword] returns 0 and changes nothing. *)
Theorem registry_capacity (g : globals) (src : option (list byte)) (texts : list (list byte)) :
  g_keyword_count g ≤ MAX_KEYWORDS ->
  g_keyword_count (register_all texts g) ≤ MAX_KEYWORDS
  ∧ (g_keyword_count g = MAX_KEYWORDS ->
     append_keyword src g = (g, false) ∧ register_all texts g = g).
Proof.
  intros H. split; [by apply register_all_count|].
  intros Hfull. split; [apply append_keyword_full|apply register_all_full]; lia.
Qed.

Lemma registry_capacity_witness :
  g_keyword_count (numbered_registry 512) = MAX_KEYWORDS
  ∧ append_keyword (Some (C.bytes "zz")) (numbered_registry 512)
    = (numbered_registry 512, false)
  ∧ register_all [C.bytes "zz"; C.bytes "yy"] (numbered_registry 512)
    = numbered_registry 512.
Proof.
  assert (g_keyword_count (numbered_registry 512) = MAX_KEYWORDS) as Hfull
    by (vm_compute; reflexivity).
  assert (g_keyword_count (numbered_registry 512) ≤ MAX_KEYWORDS) as Hle
    by (rewrite Hfull; apply Nat.le_refl).
  destruct (registry_capacity (numbered_registry 512) (Some (C.bytes "zz"))
              [C.bytes "zz"; C.bytes "yy"] Hle) as [_ Hstop].
  split; [exact Hfull|exact (Hstop Hfull)].
Defined.



Lemma append_keyword_stored text g :
  (append_keyword (Some text) g).2 = true ->
  let stored := C.tolower <$> take MAX_KEYWORD_LEN (C.c_str text) in
  stored ≠ []
  ∧ (g_keywords (append_keyword (Some text) g).1 = g_keywords g
     ∨ g_keywords (append_keyword (Some text) g).1 = g_keywords g ++ [stored])
  ∧ ∃ kw, kw ∈ g_keywords (append_keyword (Some text) g).1 ∧ C.c_str kw = stored.
Proof.
  intros H stored. unfold append_keyword in *.
  pose proof (lower_copy_no_nul text MAX_KEYWORD_LEN) as Hnul.
  rewrite lower_copy_spec in *. fold stored in H, Hnul |- *.
  destruct (MAX_KEYWORDS <=? g_keyword_count g); [done|].
  destruct (length stored =? 0) eqn:Hn; [done|].
  split; [by destruct stored|].
  destruct (existsb _ _) eqn:Hdup; cbn [fst g_keywords].
  - split; [by left|].
    apply existsb_strcmp in Hdup as (kw & Hin & Heq). exists kw. split; [done|].
    unfold C.strcmp_eq in Heq. apply bool_decide_eq_true in Heq.
    by rewrite Heq, c_str_id.
  - split; [by right|]. exists stored. split; [|by apply c_str_id].
    apply elem_of_app. right. apply list_elem_of_here.
Qed.



Lemma numbered_registry_511_count : g_keyword_count (numbered_registry 511) = 511.
Proof. vm_compute. reflexivity. Qed.

Lemma numbered_registry_ok n : registry_ok (numbered_registry n).
Proof. apply register_all_ok, registry_ok_initial. Qed.


(** ** Key events as engine inputs *)

Lemma engine_run_app a b g :
  engine_run (a ++ b) g =
    ((engine_run b (engine_run a g).1).1,
     (engine_run a g).2 ++ (engine_run b (engine_run a g).1).2).
Proof.
  revert g. induction a as [|i a IH]; intros g; cbn [engine_run app fst snd].
  - by destruct (engine_run b g).
  - destruct (engine_step i g) as [g1 out]. rewrite IH.
    by destruct (engine_run a g1).
Qed.

Lemma engine_run_cons i rest g :
  engine_run (i :: rest) g =
    ((engine_run rest (engine_step i g).1).1,
     (engine_step i g).2 :: (engine_run rest (engine_step i g).1).2).
Proof.
  cbn [engine_run]. destruct (engine_step i g) as [g1 out]. cbn [fst snd].
  by destruct (engine_run rest g1).
Qed.

Lemma engine_run_length inputs g : length (engine_run inputs g).2 = length inputs.
Proof.
  revert g. induction inputs as [|i inputs IH]; intros g; [done|].
  rewrite engine_run_cons. simpl. by rewrite IH.
Qed.

Lemma process_unit_step wc g out :
  process_unit (g, out) wc
  = ((engine_step (unit_input wc) g).1, out ++ (engine_step (unit_input wc) g).2).
Proof.
  unfold process_unit, unit_input.
  destruct (_ || _); simpl; [by rewrite app_nil_r|].
  by destruct (process_char _ g).
Qed.

Lemma process_units_run wcs g out :
  foldl process_unit (g, out) wcs
  = ((engine_run (unit_input <$> wcs) g).1,
     out ++ concat (engine_run (unit_input <$> wcs) g).2).
Proof.
  revert g out. induction wcs as [|wc wcs IH]; intros g out.
  - simpl. by rewrite app_nil_r.
  - rewrite fmap_cons, engine_run_cons. cbn [foldl].
    rewrite process_unit_step, IH. cbn [fst snd concat]. by rewrite app_assoc.
Qed.

(** [process_key_event] is the engine run on the inputs of the key event. *)
Lemma process_key_event_run k g :
  (process_key_event k g).1
  = ((engine_run (key_inputs k) g).1, concat (engine_run (key_inputs k) g).2).
Proof.
  unfold process_key_event, key_inputs.
  destruct (vk k =? VK_BACK)%Z; [done|].
  destruct (is_modifier_down k); [done|].
  destruct (negb (keyboard_state_ok k)); [done|].
  destruct (to_unicode_rc k <=? 0)%Z; [done|].
  rewrite process_units_run. done.
Qed.

(** ** What is emitted *)

Lemma process_char_emits raw g : Forall (fun m => is_match m = true) (process_char raw g).2.
Proof.
  unfold process_char.
  repeat (match goal with
          | |- context [if ?b then _ else _] => destruct b
          | |- context [match ?o with Some _ => _ | None => _ end] => destruct o
          end; simpl; try done);
    by repeat constructor.
Qed.

Lemma engine_step_emits i g : Forall (fun m => is_match m = true) (engine_step i g).2.
Proof. destruct i; simpl; [apply process_char_emits|done..]. Qed.

Lemma engine_run_emits inputs g :
  Forall (fun m => is_match m = true) (concat (engine_run inputs g).2).
Proof.
  revert g. induction inputs as [|i inputs IH]; intros g; [done|].
  rewrite engine_run_cons. simpl. apply Forall_app. split; [apply engine_step_emits|apply IH].
Qed.

Lemma keyboard_hook_emits h g out :
  ∃ events, (keyboard_hook h (g, out)).2 = out ++ events
            ∧ Forall (fun m => is_match m = true) events.
Proof.
  unfold keyboard_hook.
  destruct (_ && _).
  - pose proof (process_key_event_run (kb h) g) as Hrun.
    destruct (process_key_event (kb h) g) as [[g' out'] calls]. simpl in *.
    exists out'. split; [done|].
    injection Hrun as _ ->. apply engine_run_emits.
  - exists []. by rewrite app_nil_r.
Qed.

Lemma message_loop_emits calls g out :
  ∃ events, (foldl (fun st h => keyboard_hook h st) (g, out) calls).2 = out ++ events
            ∧ Forall (fun m => is_match m = true) events.
Proof.
  revert g out. induction calls as [|h calls IH]; intros g out.
  - exists []. by rewrite app_nil_r.
  - cbn [foldl]. destruct (keyboard_hook_emits h g out) as (ev1 & Hev1 & Hm1).
    destruct (keyboard_hook h (g, out)) as [g1 out1]. cbn [snd] in Hev1. subst out1.
    destruct (IH g1 (out ++ ev1)) as (ev2 & -> & Hm2).
    exists (ev1 ++ ev2). split; [by rewrite app_assoc|by apply Forall_app].
Qed.

(** ** Exit codes (C8) *)

(** C8: [main] writes one error message and returns 1 when the argument is
    missing or the scanner registers no keyword; it writes one error message
    and returns 2 when the hook cannot be installed; otherwise it writes the
    ready message, then keyword matches only, and returns 0 when the message
    loop ends.  So an error message is always the only output and always
    comes with exit code 1 or 2. *)
Theorem main_exit_codes (r : run) :
  (length (argv r) < 2 ∨ parsed_keyword_count r = 0 ->
   ∃ msg, main r = ([Error msg], 1%Z))
  ∧ (0 < parsed_keyword_count r -> hook_installed r = false ->
     ∃ msg, main r = ([Error msg], 2%Z))
  ∧ (0 < parsed_keyword_count r -> hook_installed r = true ->
     (main r).2 = 0%Z
     ∧ ∃ events, (main r).1 = Ready :: events
                 ∧ Forall (fun m => is_match m = true) events)
  ∧ (∀ msg, Error msg ∈ (main r).1 ->
     (main r).1 = [Error msg] ∧ ((main r).2 = 1%Z ∨ (main r).2 = 2%Z)).
Proof.
  assert (∀ text (code : Z) msg, code = 1%Z ∨ code = 2%Z ->
            Error msg ∈ [emit_error text] ->
            [emit_error text] = [Error msg] ∧ (code = 1%Z ∨ code = 2%Z)) as Honly.
  { intros text code msg Hcode Hin%list_elem_of_singleton. split; [|done].
    unfold emit_error. by rewrite Hin. }
  unfold parsed_keyword_count, main.
  destruct (length (argv r) <? 2) eqn:Hargc.
  { apply Nat.ltb_lt in Hargc.
    assert (argv r !! 1 = None) as -> by (apply lookup_ge_None; lia).
    cbn [parse_keywords_json fst snd].
    change (g_keyword_count (seed_charsets initial_globals)) with 0.
    split; [intros _; by eexists|]. split; [lia|]. split; [lia|].
    intros msg. apply Honly. by left. }
  apply Nat.ltb_ge in Hargc.
  destruct (parse_keywords_json (argv r !! 1) (seed_charsets initial_globals))
    as [g ok] eqn:Hparse.
  assert (ok = (0 <? g_keyword_count g)) as Hok.
  { unfold parse_keywords_json in Hparse. destruct (argv r !! 1); by inversion Hparse. }
  cbn [fst]. destruct (0 <? g_keyword_count g) eqn:Hcount; subst ok; cbn [negb].
  2:{ apply Nat.ltb_ge in Hcount. cbn [fst snd].
      split; [intros _; by eexists|]. split; [lia|]. split; [lia|].
      intros msg. apply Honly. by left. }
  apply Nat.ltb_lt in Hcount.
  destruct (hook_installed r) eqn:Hhook; cbn [negb].
  2:{ cbn [fst snd]. split; [intros [?|?]; lia|]. split; [intros _ _; by eexists|].
      split; [done|]. intros msg. apply Honly. by right. }
  destruct (message_loop_emits (delivered r) (apply_keyword_chars_to_charsets g) [emit_ready])
    as (events & Hout & Hev).
  destruct (foldl _ _ (delivered r)) as [g' out]. cbn [snd] in Hout. subst out.
  cbn [fst snd]. split; [intros [?|?]; lia|]. split; [done|]. split.
  - intros _ _. split; [done|]. by exists events.
  - intros msg Hin. exfalso.
    apply elem_of_cons in Hin as [Hin|Hin]; [done|].
    rewrite Forall_forall in Hev. by specialize (Hev _ Hin).
Qed.

Lemma main_exit_codes_witness :
  (∃ msg, main run_without_arguments = ([Error msg], 1%Z))
  ∧ (∃ msg, main run_without_hook = ([Error msg], 2%Z))
  ∧ (main run_until_shutdown).2 = 0%Z
  ∧ (main run_until_shutdown).1 = [Ready; Keyword (C.bytes "sig") NUL].
Proof.
  split; [|split; [|split]].
  - apply (main_exit_codes run_without_arguments). left. vm_compute. lia.
  - apply (main_exit_codes run_without_hook); [vm_compute; lia|reflexivity].
  - apply (main_exit_codes run_until_shutdown); [vm_compute; lia|reflexivity].
  - reflexivity.
Defined.

(** ** Matching on a character sequence (C1) *)

Lemma most_recent_snoc {A} n (l : list A) x :
  most_recent n (most_recent n l ++ [x]) = most_recent n (l ++ [x]).
Proof.
  unfold most_recent. rewrite !length_app, length_drop. simpl.
  destruct (decide (length l ≤ n)) as [Hle|Hgt].
  - replace (length l - n) with 0 by lia. simpl. f_equal. lia.
  - destruct n as [|n].
    + rewrite !drop_ge; [done|rewrite length_app; simpl; lia|].
      rewrite length_app, length_drop. simpl. lia.
    + rewrite !drop_app_le by (rewrite ?length_drop; lia).
      rewrite drop_drop. f_equal. f_equal. lia.
Qed.

Lemma most_recent_nil {A} n : most_recent n (@nil A) = [].
Proof. done. Qed.

Lemma registry_max_longest g :
  registry_ok g -> g_keywords g ≠ [] -> g_max_keyword_len g = longest (g_keywords g).
Proof.
  intros [_ Hne _ _ _ Hmax _] HK. rewrite Hmax.
  destruct (longest_attained _ HK) as (kw & Hin & <-).
  rewrite Forall_forall in Hne. specialize (Hne kw Hin). destruct kw; [done|simpl; lia].
Qed.

Lemma nil_not_keyword g : registry_ok g -> [] ∉ g_keywords g.
Proof.
  intros [_ Hne _ _ _ _ _] Hin. rewrite Forall_forall in Hne. by apply (Hne [] Hin).
Qed.

(** One character, against the run kept by the specification: [after] is
    the run since the last reset, of which the buffer is the most recent
    part, and the buffer is no keyword. *)
Lemma process_char_run_step g after x c :
  engine_ok g ->
  g_token g = most_recent (g_max_keyword_len g) after ->
  g_token g ∉ g_keywords g ->
  let st := run_step g (after, x) c in
  let candidate := most_recent (longest (g_keywords g)) st.2 in
  process_char c g =
    (set_token g (most_recent (g_max_keyword_len g) st.1),
     if decide (candidate ∈ g_keywords g) then [Keyword candidate NUL] else [])
  ∧ most_recent (g_max_keyword_len g) st.1 ∉ g_keywords g.
Proof.
  intros Hok Htok Hnk st candidate.
  pose proof (nil_not_keyword g (ok_registry g Hok)) as Hnil.
  subst candidate st. unfold run_step. cbn [fst snd].
  destruct (is_token_char g c) eqn:Hc.
  - rewrite process_char_token by done.
    rewrite Htok, most_recent_snoc.
    destruct (decide (g_keywords g = [])) as [HK|HK].
    + rewrite HK. rewrite !decide_False by apply not_elem_of_nil.
      rewrite bool_decide_eq_false_2 by apply not_elem_of_nil.
      split; [done|apply not_elem_of_nil].
    + rewrite <- (registry_max_longest g) by (done || apply Hok).
      destruct (decide (most_recent (g_max_keyword_len g) (after ++ [C.tolower c])
                        ∈ g_keywords g)) as [Hin|Hin].
      * rewrite bool_decide_eq_true_2 by done. by rewrite most_recent_nil.
      * by rewrite bool_decide_eq_false_2 by done.
  - rewrite most_recent_nil, bool_decide_eq_false_2, decide_False, most_recent_nil by done.
    split; [|done].
    destruct (is_delimiter_char g c) eqn:Hd.
    + rewrite process_char_delimiter by done. by rewrite decide_False.
    + by rewrite process_char_other.
Qed.

Lemma run_steps_emitted typed g after x n :
  engine_ok g ->
  g_token g = most_recent (g_max_keyword_len g) after ->
  g_token g ∉ g_keywords g ->
  n < length typed ->
  let candidate :=
    most_recent (longest (g_keywords g))
      (foldl (run_step g) (after, x) (take (S n) typed)).2 in
  (engine_run (type_text typed) g).2 !! n =
    Some (if decide (candidate ∈ g_keywords g) then [Keyword candidate NUL] else []).
Proof.
  revert g after x n. induction typed as [|c typed IH]; intros g after x n Hok Htok Hnk Hn;
    [simpl in Hn; lia|].
  destruct (process_char_run_step g after x c Hok Htok Hnk) as [Hstep Hnk'].
  unfold type_text. rewrite fmap_cons, engine_run_cons. cbn [engine_step].
  rewrite Hstep. cbn [fst snd].
  destruct n as [|n]; [done|].
  cbn [take foldl lookup list_lookup].
  set (st := run_step g (after, x) c) in *.
  set (g1 := set_token g (most_recent (g_max_keyword_len g) st.1)) in *.
  assert (engine_ok g1) as Hok1.
  { replace g1 with (process_char c g).1 by (by rewrite Hstep). by apply process_char_ok. }
  specialize (IH g1 st.1 st.2 n Hok1 eq_refl Hnk').
  simpl in Hn. specialize (IH ltac:(lia)).
  destruct st as [after' run']. exact IH.
Qed.

(** C1, as amended: from start-up, a match fires at a position of a typed
    character sequence if and only if the run of token characters since the
    last reset (a character that is no token character, or the previous
    match), trimmed to the longest keyword length, is a keyword; the match
    carries that keyword and the sentinel delimiter. *)
Theorem match_iff_run_since_reset_matches
    (texts : list (list byte)) (typed : list byte) (n : nat) :
  n < length typed ->
  let g := configure texts in
  let candidate :=
    most_recent (longest (g_keywords g)) (run_since_reset g (take (S n) typed)) in
  emitted_at texts typed !! n =
    Some (if decide (candidate ∈ g_keywords g) then [Keyword candidate NUL] else [])
  ∧ (fires_at texts typed n <-> candidate ∈ g_keywords g).
Proof.
  intros Hn g candidate.
  assert (emitted_at texts typed !! n =
    Some (if decide (candidate ∈ g_keywords g) then [Keyword candidate NUL] else [])) as He.
  { apply (run_steps_emitted typed g [] [] n); [apply configure_ok| | |done].
    - unfold g. by rewrite configure_token.
    - unfold g. rewrite configure_token. apply nil_not_keyword, configure_ok. }
  split; [done|]. unfold fires_at. rewrite He.
  destruct (decide (candidate ∈ g_keywords g)) as [Hin|Hin]; split; try done.
  - intros _. by eexists.
  - intros (out & Heq & Hne). congruence.
Qed.

Lemma match_iff_run_since_reset_matches_witness :
  emitted_at [C.bytes "ab"; C.bytes "ba"] (C.bytes "aba") !! 1
  = Some [Keyword (C.bytes "ab") NUL]
  ∧ (fires_at [C.bytes "ab"; C.bytes "ba"] (C.bytes "aba") 1
     <-> C.bytes "ab" ∈ g_keywords (configure [C.bytes "ab"; C.bytes "ba"])).
Proof.
  assert (1 < length (C.bytes "aba")) as Hn by (vm_compute; lia).
  exact (match_iff_run_since_reset_matches
           [C.bytes "ab"; C.bytes "ba"] (C.bytes "aba") 1 Hn).
Defined.

(** C1 as stated fails when a match has just reset the buffer: with the
    keywords ab and ba and the characters a b a, the run of token
    characters that ends at the last a is aba, whose most recent two
    characters are the keyword ba, but the match on ab at the b cleared the
    buffer, and nothing fires at the last a. *)
Lemma fires_iff_token_run_matches_counterexample :
  ¬ fires_iff_token_run_matches [C.bytes "ab"; C.bytes "ba"] (C.bytes "aba") 2.
Proof.
  intros H.
  assert (2 < length (C.bytes "aba")) as Hn by (vm_compute; lia).
  destruct (H Hn) as [_ Hfires].
  destruct Hfires as (out & Hout & Hne).
  - apply (bool_decide_unpack _). vm_compute. exact I.
  - vm_compute in Hout. congruence.
Qed.

(** ** Typing a text from an empty buffer *)

Lemma engine_step_frame i g : ∃ token, (engine_step i g).1 = set_token g token.
Proof.
  destruct i; simpl; try by eexists.
  - unfold process_char.
    destruct (tbl_get (g_allowed g) _).
    + rewrite trim_token_to_max_spec. destruct (g_token_len g <? MAX_TOKEN_LEN);
      match goal with |- context [keyword_index ?a ?b] => destruct (keyword_index a b) end;
        by eexists.
    + destruct (tbl_get (g_delimiters g) _); by eexists.
  - unfold backspace. destruct (0 <? _); [by eexists|].
    exists (g_token g). by rewrite set_token_id.
Qed.

Lemma engine_run_frame inputs g : ∃ token, (engine_run inputs g).1 = set_token g token.
Proof.
  revert g. induction inputs as [|i inputs IH]; intros g.
  - exists (g_token g). by rewrite set_token_id.
  - rewrite engine_run_cons. cbn [fst].
    destruct (engine_step_frame i g) as [t1 ->].
    destruct (IH (set_token g t1)) as [t2 ->]. by exists t2.
Qed.

Lemma engine_run_ok inputs g : engine_ok g -> engine_ok (engine_run inputs g).1.
Proof.
  revert g. induction inputs as [|i inputs IH]; intros g Hok; [done|].
  rewrite engine_run_cons. by apply IH, engine_step_ok.
Qed.

Lemma type_text_snoc s c : type_text (s ++ [c]) = type_text s ++ [TypeChar c].
Proof. unfold type_text. by rewrite fmap_app. Qed.

(** A keyword character that is no whitespace is a token character and is
    its own lower case. *)
Lemma keyword_char_token g kw c :
  engine_ok g -> kw ∈ g_keywords g -> c ∈ kw -> is_keyword_whitespace c = false ->
  C.tolower c = c ∧ is_token_char g c = true.
Proof.
  intros [Hreg Hcs _ _] Hkw Hc Hws.
  assert (C.tolower c = c) as Hlow.
  { pose proof (reg_lower g Hreg) as Hl. rewrite Forall_forall in Hl.
    specialize (Hl kw Hkw). rewrite Forall_forall in Hl. by apply Hl. }
  split; [done|]. unfold is_token_char. rewrite Hlow.
  by apply (cs_keywords g Hcs kw).
Qed.

Lemma keyword_length_max g kw :
  registry_ok g -> kw ∈ g_keywords g -> length kw ≤ g_max_keyword_len g.
Proof.
  intros Hreg Hkw. rewrite (reg_max g Hreg).
  pose proof (longest_ge _ _ Hkw). lia.
Qed.

(** Typing [s] from an empty buffer only fills the buffer, as long as the
    characters are lower-case token characters, [s] fits and no non-empty
    prefix of [s] is a keyword. *)
Lemma type_fresh s g :
  engine_ok g -> g_token g = [] ->
  (∀ c, c ∈ s -> C.tolower c = c ∧ is_token_char g c = true) ->
  length s ≤ g_max_keyword_len g ->
  (∀ p, p ≠ [] -> p `prefix_of` s -> p ∉ g_keywords g) ->
  engine_run (type_text s) g = (set_token g s, replicate (length s) []).
Proof.
  intros Hok Hempty. induction s as [|c s IH] using rev_ind; intros Hchars Hlen Hfresh.
  - simpl. by rewrite <- Hempty, set_token_id.
  - rewrite length_app in Hlen. simpl in Hlen.
    rewrite type_text_snoc, engine_run_app, IH; cycle 1.
    { intros c' Hc'. apply Hchars, elem_of_app. by left. }
    { lia. }
    { intros p Hp Hpre. apply Hfresh; [done|]. by apply prefix_app_r. }
    cbn [fst snd].
    assert (engine_ok (set_token g s)) as Hok'.
    { pose proof (engine_run_ok (type_text s) g Hok) as H. by rewrite IH in H;
        [|intros c' Hc'; apply Hchars, elem_of_app; by left|lia
         |intros p Hp Hpre; apply Hfresh; [done|by apply prefix_app_r]]. }
    destruct (Hchars c) as [Hlow Htok]; [apply elem_of_app; right; apply list_elem_of_here|].
    rewrite engine_run_cons. cbn [engine_step engine_run fst snd].
    rewrite (process_char_token (set_token g s) c Hok' Htok).
    cbn [set_token g_token g_max_keyword_len g_keywords]. rewrite Hlow.
    rewrite most_recent_all by (rewrite length_app; simpl; lia).
    rewrite decide_False by (apply Hfresh; [by destruct s|done]).
    cbn [fst snd]. f_equal.
    rewrite length_app. simpl. rewrite Nat.add_1_r. by rewrite replicate_S_end.
Qed.

(** Typing the keyword [k] from an empty buffer: nothing until the last
    character, then the match on [k], and the buffer is empty again. *)
Lemma type_keyword k g :
  engine_ok g -> g_token g = [] ->
  k ∈ g_keywords g ->
  (∀ c, c ∈ k -> is_keyword_whitespace c = false) ->
  (∀ p, proper_prefix p k -> p ∉ g_keywords g) ->
  engine_run (type_text k) g
  = (g, replicate (length k - 1) [] ++ [[Keyword k NUL]]).
Proof.
  intros Hok Hempty Hk Hws Hfresh.
  assert (k ≠ []) as Hne by (intros ->; by apply (nil_not_keyword g (ok_registry g Hok))).
  pose proof (keyword_length_max g k (ok_registry g Hok) Hk) as Hlen.
  destruct (exists_last Hne) as (s & c & ->).
  rewrite length_app in *. simpl in Hlen. simpl length.
  replace (length s + 1 - 1) with (length s) by lia.
  assert (∀ c', c' ∈ s ++ [c] -> C.tolower c' = c' ∧ is_token_char g c' = true) as Hchars.
  { intros c' Hc'. apply (keyword_char_token g (s ++ [c])); auto. }
  assert (engine_run (type_text s) g = (set_token g s, replicate (length s) [])) as Hs.
  { apply type_fresh; [done|done| |lia|].
    - intros c' Hc'. apply Hchars, elem_of_app. by left.
    - intros p Hp Hpre. apply Hfresh. split; [done|]. split; [|by apply prefix_app_r].
      intros ->. by apply (prefix_snoc_not s c). }
  pose proof (engine_run_ok (type_text s) g Hok) as Hok'. rewrite Hs in Hok'. cbn [fst] in Hok'.
  destruct (Hchars c) as [Hlow Htok]; [apply elem_of_app; right; apply list_elem_of_here|].
  rewrite type_text_snoc, engine_run_app, Hs. cbn [fst snd].
  rewrite engine_run_cons. cbn [engine_step engine_run fst snd].
  rewrite (process_char_token (set_token g s) c Hok' Htok).
  cbn [set_token g_token g_max_keyword_len g_keywords]. rewrite Hlow.
  rewrite most_recent_all by (rewrite length_app; simpl; lia).
  rewrite decide_True by done. cbn [fst snd]. f_equal.
  transitivity (set_token g (g_token g)); [by rewrite Hempty|apply set_token_id].
Qed.

(** ** Backspace and retyping (C2) *)

Lemma concat_replicate_nil {A} n (l : list (list A)) :
  concat (replicate n [] ++ l) = concat l.
Proof. induction n as [|n IH]; [done|]. simpl. exact IH. Qed.

Lemma backspace_empty g : g_token g = [] -> backspace g = g.
Proof. intros H. unfold backspace, g_token_len. by rewrite H. Qed.

Lemma most_recent_last {A} (l : list A) (x : A) : most_recent 1 (l ++ [x]) = [x].
Proof.
  unfold most_recent. rewrite length_app. simpl.
  replace (length l + 1 - 1) with (length l) by lia. apply drop_app_length.
Qed.

(** C2, as amended: for a registered keyword [k] without whitespace, of which
    no proper prefix is registered and whose final character alone is not a
    registered keyword, the characters of [k], one backspace and the final
    character again produce exactly one keyword match: the match on [k],
    with the sentinel delimiter, at the last character of the first typing.
    The backspace finds the buffer already empty and the retyped character
    matches nothing. *)
Theorem backspace_retype_fires_once_when_fresh (texts : list (list byte)) (k : list byte) :
  let g := configure texts in
  k ∈ g_keywords g ->
  (∀ c, c ∈ k -> is_keyword_whitespace c = false) ->
  (∀ p, proper_prefix p k -> p ∉ g_keywords g) ->
  most_recent 1 k ∉ g_keywords g ->
  (engine_run (backspace_retype k) g).2
  = replicate (length k - 1) [] ++ [[Keyword k NUL]; []; []]
  ∧ retype_matches texts k = [Keyword k NUL].
Proof.
  intros g Hk Hws Hfresh Hlast.
  pose proof (configure_ok texts) as Hok. fold g in Hok.
  pose proof (configure_token texts) as Hempty. fold g in Hempty.
  assert ((engine_run (backspace_retype k) g).2
          = replicate (length k - 1) [] ++ [[Keyword k NUL]; []; []]) as Hrun.
  { unfold backspace_retype.
    rewrite engine_run_app, (type_keyword k g Hok Hempty Hk Hws Hfresh). cbn [fst snd].
    rewrite engine_run_cons. cbn [engine_step fst snd].
    rewrite (backspace_empty g Hempty).
    assert (k ≠ []) as Hne by (intros ->; by apply (nil_not_keyword g (ok_registry g Hok))).
    destruct (exists_last Hne) as (s & c & ->).
    rewrite most_recent_last in *.
    rewrite (type_fresh [c] g Hok Hempty).
    - cbn [snd]. by rewrite <- app_assoc.
    - intros c' ->%list_elem_of_singleton.
      apply (keyword_char_token g (s ++ [c])); [done|done| |].
      + apply elem_of_app. right. apply list_elem_of_here.
      + apply Hws, elem_of_app. right. apply list_elem_of_here.
    - pose proof (registry_max_pos g (ok_registry g Hok)). cbn [length]. lia.
    - intros p Hp Hpre Hin.
      assert (p = [c]) as ->; [|done].
      destruct p as [|c' p]; [done|].
      apply prefix_cons_inv_1 in Hpre as Hc. apply prefix_cons_inv_2 in Hpre.
      apply prefix_nil_inv in Hpre. by subst. }
  split; [done|]. unfold retype_matches. fold g. rewrite Hrun.
  by rewrite concat_replicate_nil.
Qed.

Lemma backspace_retype_fires_once_when_fresh_witness :
  (engine_run (backspace_retype (C.bytes "sig")) (configure [C.bytes "sig"])).2
  = replicate (length (C.bytes "sig") - 1) [] ++ [[Keyword (C.bytes "sig") NUL]; []; []]
  ∧ retype_matches [C.bytes "sig"] (C.bytes "sig") = [Keyword (C.bytes "sig") NUL].
Proof.
  apply (backspace_retype_fires_once_when_fresh [C.bytes "sig"] (C.bytes "sig")).
  - apply (bool_decide_unpack _). vm_compute. exact I.
  - intros c Hc. apply list_elem_of_In in Hc. simpl in Hc.
    destruct Hc as [<-|[<-|[<-|[]]]]; reflexivity.
  - intros p (Hne & Hneq & Hpre) Hin.
    change (g_keywords (configure [C.bytes "sig"])) with [C.bytes "sig"] in Hin.
    by apply list_elem_of_singleton in Hin.
  - intros Hin.
    change (g_keywords (configure [C.bytes "sig"])) with [C.bytes "sig"] in Hin.
    apply list_elem_of_singleton in Hin. discriminate Hin.
Defined.

(** C2 as stated fails for a keyword of one character: with the keyword a,
    the first a matches and clears the buffer, the backspace finds it
    empty, and the second a matches again: two matches. *)
Lemma backspace_retype_fires_once_counterexample :
  ¬ backspace_retype_fires_once [C.bytes "a"] (C.bytes "a").
Proof.
  intros H.
  assert (C.bytes "a" ∈ g_keywords (configure [C.bytes "a"])) as Hin
    by (apply (bool_decide_unpack _); vm_compute; exact I).
  specialize (H Hin). vm_compute in H. discriminate H.
Qed.

(** ** A keyword that is a prefix of another (C10) *)

(** After a character the buffer is never a keyword. *)
Lemma process_char_not_keyword c g :
  engine_ok g -> g_token (process_char c g).1 ∉ g_keywords g.
Proof.
  intros Hok. pose proof (nil_not_keyword g (ok_registry g Hok)) as Hnil.
  destruct (is_token_char g c) eqn:Htok.
  - rewrite process_char_token by done. by case_decide.
  - destruct (is_delimiter_char g c) eqn:Hd.
    + by rewrite process_char_delimiter.
    + by rewrite process_char_other.
Qed.

(** One character makes the buffer at most one byte longer; what it emits is
    no longer than that; and the buffer afterwards is the old buffer with
    the character appended, or is shorter than that. *)
Lemma process_char_lengths c g :
  engine_ok g ->
  (g_token (process_char c g).1 = g_token g ++ [C.tolower c]
   ∨ length (g_token (process_char c g).1) < length (g_token g) + 1)
  ∧ ∀ kw d, Keyword kw d ∈ (process_char c g).2 -> length kw ≤ length (g_token g) + 1.
Proof.
  intros Hok.
  destruct (is_token_char g c) eqn:Htok.
  - rewrite process_char_token by done.
    set (cand := most_recent _ _).
    assert (length cand ≤ length (g_token g) + 1) as Hlen.
    { unfold cand. rewrite most_recent_length, length_app. simpl. lia. }
    assert (cand = g_token g ++ [C.tolower c] ∨ length cand < length (g_token g) + 1) as Hc.
    { destruct (decide (length (g_token g ++ [C.tolower c]) ≤ g_max_keyword_len g)).
      - left. by apply most_recent_all.
      - right. unfold cand. rewrite most_recent_length. rewrite length_app in *.
        simpl in *. lia. }
    case_decide; cbn [fst snd set_token clear_token g_token].
    + split; [right; simpl; lia|]. by intros kw d [= -> ->]%list_elem_of_singleton.
    + split; [done|]. by intros kw d []%elem_of_nil.
  - assert ((process_char c g).1 = clear_token g
            ∧ ∀ kw d, Keyword kw d ∈ (process_char c g).2 -> kw = g_token g) as [-> Hout].
    { destruct (is_delimiter_char g c) eqn:Hd.
      - rewrite process_char_delimiter by done. split; [done|]. cbn [snd].
        case_decide; [|by intros kw d []%elem_of_nil].
        by intros kw d [= -> ->]%list_elem_of_singleton.
      - rewrite process_char_other by done. split; [done|].
        by intros kw d []%elem_of_nil. }
    split; [right; simpl; lia|]. intros kw d Hin. rewrite (Hout kw d Hin). lia.
Qed.

Lemma type_text_lengths s g :
  engine_ok g ->
  (g_token (engine_run (type_text s) g).1 = g_token g ++ (C.tolower <$> s)
   ∨ length (g_token (engine_run (type_text s) g).1) < length (g_token g) + length s)
  ∧ length (g_token (engine_run (type_text s) g).1) ≤ length (g_token g) + length s
  ∧ ∀ kw d, Keyword kw d ∈ concat (engine_run (type_text s) g).2 ->
            length kw ≤ length (g_token g) + length s.
Proof.
  revert g. induction s as [|c s IH]; intros g Hok.
  - simpl. split; [left; by rewrite app_nil_r|]. split; [lia|].
    by intros kw d []%elem_of_nil.
  - unfold type_text. rewrite fmap_cons, engine_run_cons. fold (type_text s).
    cbn [engine_step fst snd concat length].
    destruct (process_char_lengths c g Hok) as [Hshape Hout].
    pose proof (process_char_ok c g Hok) as Hok1.
    destruct (IH (process_char c g).1 Hok1) as (Hshape' & Hlen' & Hout').
    assert (length (g_token (process_char c g).1) ≤ length (g_token g) + 1) as Hlen1.
    { destruct Hshape as [->|?]; [rewrite length_app; simpl|]; lia. }
    split; [|split].
    + destruct Hshape as [Heq|Hlt].
      * destruct Hshape' as [->|Hlt'].
        -- left. rewrite Heq, fmap_cons, <- app_assoc. done.
        -- right. rewrite Heq, length_app in Hlt'. simpl in Hlt'. lia.
      * right. lia.
    + lia.
    + intros kw d [Hin|Hin]%elem_of_app.
      * specialize (Hout kw d Hin). lia.
      * specialize (Hout' kw d Hin). lia.
Qed.

Lemma type_text_not_keyword s g :
  engine_ok g -> s ≠ [] -> g_token (engine_run (type_text s) g).1 ∉ g_keywords g.
Proof.
  intros Hok Hne. destruct (exists_last Hne) as (s' & c & ->).
  rewrite type_text_snoc, engine_run_app. cbn [fst].
  rewrite engine_run_cons. cbn [engine_step engine_run fst].
  destruct (engine_run_frame (type_text s') g) as [t Ht].
  pose proof (engine_run_ok (type_text s') g Hok) as Hok'.
  rewrite Ht in *.
  apply (process_char_not_keyword c (set_token g t) Hok').
Qed.

Lemma keyword_tolower g kw : registry_ok g -> kw ∈ g_keywords g -> C.tolower <$> kw = kw.
Proof.
  intros Hreg Hkw. pose proof (reg_lower g Hreg) as Hl. rewrite Forall_forall in Hl.
  specialize (Hl kw Hkw). clear Hkw.
  induction kw as [|c l IH]; [done|].
  apply Forall_cons in Hl as [Hc Hl]. rewrite fmap_cons. f_equal; [exact Hc|by apply IH].
Qed.

(** C10, as amended: for registered keywords [k1], a proper prefix of [k2],
    typing [k2] from start-up never emits a match on [k2]; and when [k1] has
    no whitespace and no proper prefix of [k1] is itself registered, the
    match on [k1], with the sentinel delimiter, is emitted at the last
    character of [k1] and the buffer is empty there. *)
Theorem shortest_prefix_keyword_fires (texts : list (list byte)) (k1 k2 : list byte) :
  let g := configure texts in
  k1 ∈ g_keywords g -> k2 ∈ g_keywords g -> proper_prefix k1 k2 ->
  (∀ d, Keyword k2 d ∉ concat (engine_run (type_text k2) g).2)
  ∧ ((∀ c, c ∈ k1 -> is_keyword_whitespace c = false) ->
     (∀ p, proper_prefix p k1 -> p ∉ g_keywords g) ->
     (engine_run (type_text k2) g).2 !! (length k1 - 1) = Some [Keyword k1 NUL]
     ∧ g_token (engine_run (type_text k1) g).1 = []).
Proof.
  intros g Hk1 Hk2 (Hne & Hneq & [rest ->]).
  pose proof (configure_ok texts) as Hok. fold g in Hok.
  pose proof (configure_token texts) as Hempty. fold g in Hempty.
  assert (rest ≠ []) as Hrest by (intros ->; by rewrite app_nil_r in Hneq).
  unfold type_text. rewrite fmap_app, engine_run_app. fold (type_text k1) (type_text rest).
  cbn [fst snd]. split.
  - intros d Hin. rewrite concat_app in Hin.
    destruct (type_text_lengths k1 g Hok) as (Hshape & _ & Hout).
    rewrite Hempty in Hshape, Hout. simpl in Hshape, Hout.
    pose proof (type_text_not_keyword k1 g Hok Hne) as Hnk.
    assert (length (g_token (engine_run (type_text k1) g).1) < length k1) as Hshort.
    { destruct Hshape as [Heq|?]; [|done].
      rewrite (keyword_tolower g k1 (ok_registry g Hok) Hk1) in Heq. by rewrite Heq in Hnk. }
    assert (0 < length rest) by (destruct rest; [done|simpl; lia]).
    apply elem_of_app in Hin as [Hin|Hin].
    + specialize (Hout _ _ Hin). rewrite length_app in Hout. lia.
    + destruct (type_text_lengths rest _ (engine_run_ok (type_text k1) g Hok))
        as (_ & _ & Hout2).
      specialize (Hout2 _ _ Hin). rewrite length_app in Hout2. lia.
  - intros Hws Hfresh.
    rewrite (type_keyword k1 g Hok Hempty Hk1 Hws Hfresh). cbn [fst snd].
    split; [|done].
    rewrite <- app_assoc. apply list_lookup_middle. by rewrite length_replicate.
Qed.

Lemma shortest_prefix_keyword_fires_witness :
  (∀ d, Keyword (C.bytes "sigma") d
        ∉ concat (engine_run (type_text (C.bytes "sigma"))
                    (configure [C.bytes "sig"; C.bytes "sigma"])).2)
  ∧ (engine_run (type_text (C.bytes "sigma"))
       (configure [C.bytes "sig"; C.bytes "sigma"])).2 !! (length (C.bytes "sig") - 1)
    = Some [Keyword (C.bytes "sig") NUL]
  ∧ g_token (engine_run (type_text (C.bytes "sig"))
               (configure [C.bytes "sig"; C.bytes "sigma"])).1 = [].
Proof.
  destruct (shortest_prefix_keyword_fires
              [C.bytes "sig"; C.bytes "sigma"] (C.bytes "sig") (C.bytes "sigma"))
    as [Hnever Hfires].
  - apply (bool_decide_unpack _). vm_compute. exact I.
  - apply (bool_decide_unpack _). vm_compute. exact I.
  - split; [discriminate|]. split; [discriminate|]. by exists (C.bytes "ma").
  - split; [exact Hnever|]. apply Hfires.
    + intros c Hc. apply list_elem_of_In in Hc. simpl in Hc.
      destruct Hc as [<-|[<-|[<-|[]]]]; reflexivity.
    + intros p (Hne & Hneq & Hpre) Hin.
      change (g_keywords (configure [C.bytes "sig"; C.bytes "sigma"]))
        with [C.bytes "sig"; C.bytes "sigma"] in Hin.
      apply elem_of_cons in Hin as [->|Hin]; [done|].
      apply list_elem_of_singleton in Hin. subst p.
      apply prefix_length in Hpre. simpl in Hpre. lia.
Defined.

(** C10 as stated fails when a shorter keyword is a prefix of [k1]: with the
    keywords a, ab and abc, typing a b c matches a at the first character
    and clears the buffer, so nothing is emitted at the b, where the claim
    expects the match on ab. *)
Lemma prefix_keyword_fires_counterexample :
  ¬ prefix_keyword_fires [C.bytes "a"; C.bytes "ab"; C.bytes "abc"]
      (C.bytes "ab") (C.bytes "abc").
Proof.
  intros H. destruct H as (Hfires & _ & _).
  - apply (bool_decide_unpack _). vm_compute. exact I.
  - apply (bool_decide_unpack _). vm_compute. exact I.
  - split; [discriminate|]. split; [discriminate|]. by exists (C.bytes "c").
  - vm_compute in Hfires. discriminate Hfires.
Qed.

(** ** The watcher on a few inputs *)

(** Keywords sig and btw: the match fires at the last character of the
    keyword, with the sentinel delimiter, and the delimiter typed next finds
    the buffer empty. *)
Example typing_sig_space :
  emitted_at [C.bytes "sig"; C.bytes "btw"] (C.bytes "sig ")
  = [[]; []; [Keyword (C.bytes "sig") NUL]; []].
Proof. reflexivity. Qed.

Example typing_xyz_space :
  emitted_at [C.bytes "sig"; C.bytes "btw"] (C.bytes "xyz ") = [[]; []; []; []].
Proof. reflexivity. Qed.

(** A delimiter emits the match only when the buffer became a keyword
    without a character making it one, as after a backspace. *)
Example typing_xabc_backspace_space :
  (engine_run (typing "xabc" ++ [PressBackspace; TypeChar " "])
     (configure [C.bytes "ab"; C.bytes "xyz"])).2
  = [[]; []; []; []; []; [Keyword (C.bytes "ab") " "]].
Proof. reflexivity. Qed.

(** A keyword with a default delimiter in it is typed as one token. *)
Example typing_widened_keyword :
  emitted_at [C.bytes "Sig!"] (C.bytes "xxsIg!")
  = [[]; []; []; []; []; [Keyword (C.bytes "sig!") NUL]].
Proof. reflexivity. Qed.

(** * Further properties of the program *)

(** ** The registry: lookup *)

Lemma keyword_scan_first K text i j :
  keyword_scan K text i = Some j <->
  i ≤ j
  ∧ (∃ kw, K !! (j - i) = Some kw ∧ C.c_str kw = C.c_str text)
  ∧ ∀ m kw, m < j - i -> K !! m = Some kw -> C.c_str kw ≠ C.c_str text.
Proof.
  revert i j. induction K as [|k K IH]; intros i j; simpl.
  - split; [done|]. intros (_ & (kw & Hkw & _) & _). done.
  - unfold C.strcmp_eq. destruct (decide (C.c_str k = C.c_str text)) as [Heq|Hne].
    + rewrite bool_decide_eq_true_2 by done. split.
      * intros [= <-]. rewrite Nat.sub_diag. split; [done|]. split; [by exists k|].
        intros; lia.
      * intros (Hle & _ & Hfirst). f_equal.
        destruct (decide (j - i = 0)) as [?|Hpos]; [lia|].
        exfalso. by apply (Hfirst 0 k); [lia|done|].
    + rewrite bool_decide_eq_false_2 by done. rewrite IH. split.
      * intros (Hle & (kw & Hkw & Heq) & Hfirst). split; [lia|].
        replace (j - i) with (S (j - S i)) by lia. split; [by exists kw|].
        intros [|m] kw' Hm Hkw'; simpl in Hkw'.
        -- by injection Hkw' as <-.
        -- apply (Hfirst m kw'); [lia|done].
      * intros (Hle & (kw & Hkw & Heq) & Hfirst).
        destruct (decide (j - i = 0)) as [Hz|Hpos].
        { rewrite Hz in Hkw. simpl in Hkw. injection Hkw as <-. done. }
        assert (S i ≤ j) as Hlt by lia.
        replace (j - i) with (S (j - S i)) in * by lia. simpl in Hkw.
        split; [done|]. split; [by exists kw|].
        intros m kw' Hm Hkw'. apply (Hfirst (S m) kw'); [lia|done].
Qed.

Lemma keyword_index_Some_inv (g : globals) (text : list byte) (i : nat) :
  keyword_index g text = Some i <->
  C.c_str text ≠ []
  ∧ (∃ kw, g_keywords g !! i = Some kw ∧ C.c_str kw = C.c_str text)
  ∧ ∀ j kw, j < i -> g_keywords g !! j = Some kw -> C.c_str kw ≠ C.c_str text.
Proof.
  unfold keyword_index. destruct (C.c_str text) as [|c t] eqn:E.
  - split; [done|]. by intros [? _].
  - rewrite <- E. rewrite keyword_scan_first, Nat.sub_0_r.
    split; [intros (_ & ? & ?)|intros (_ & ? & ?)]; repeat split; try done; try lia.
    by rewrite E.
Qed.

(** X1: [keyword_index] returns the index of the first stored keyword that
    equals [text] as a C string, and -1 ([None]) exactly when [text] is
    empty or no stored keyword equals it. *)
Theorem keyword_index_first_match (g : globals) (text : list byte) (i : nat) :
  (keyword_index g text = Some i <->
   C.c_str text ≠ []
   ∧ (∃ kw, g_keywords g !! i = Some kw ∧ C.c_str kw = C.c_str text)
   ∧ ∀ j kw, j < i -> g_keywords g !! j = Some kw -> C.c_str kw ≠ C.c_str text)
  ∧ (keyword_index g text = None <->
     C.c_str text = []
     ∨ ∀ kw, kw ∈ g_keywords g -> C.c_str kw ≠ C.c_str text).
Proof.
  split; [apply keyword_index_Some_inv|].
  unfold keyword_index.
  destruct (C.c_str text) as [|c t] eqn:E; [split; [by left|done]|].
  rewrite <- E. split.
  - intros Hnone. right. intros kw Hin Heq.
    assert (is_Some (keyword_scan (g_keywords g) text 0)) as [? ?]; [|congruence].
    apply keyword_scan_Some. exists kw. split; [done|].
    unfold C.strcmp_eq. by apply bool_decide_eq_true.
  - intros [Hnil|Hno]; [by rewrite E in Hnil|].
    destruct (keyword_scan (g_keywords g) text 0) eqn:Hs; [|done].
    assert (is_Some (keyword_scan (g_keywords g) text 0)) as HS by (by rewrite Hs).
    apply keyword_scan_Some in HS as (kw & Hin & Heq).
    unfold C.strcmp_eq in Heq. apply bool_decide_eq_true in Heq. by destruct (Hno kw Hin).
Qed.

(** X2: a registration that returns 1 can be looked up: [keyword_index] of
    the lower-cased text, truncated to 128 bytes, then returns the index of
    a stored keyword equal to it. *)
Theorem registered_keyword_is_found (g : globals) (text : list byte) :
  (append_keyword (Some text) g).2 = true ->
  let stored := C.tolower <$> take MAX_KEYWORD_LEN (C.c_str text) in
  ∃ i kw, keyword_index (append_keyword (Some text) g).1 stored = Some i
          ∧ g_keywords (append_keyword (Some text) g).1 !! i = Some kw
          ∧ C.c_str kw = stored.
Proof.
  intros Hok stored.
  destruct (append_keyword_stored text g Hok) as (Hne & _ & kw & Hin & Hkw).
  fold stored in Hne, Hkw.
  assert (C.c_str stored = stored) as Hc.
  { unfold stored. rewrite <- lower_copy_spec. apply c_str_id, lower_copy_no_nul. }
  assert (is_Some (keyword_index (append_keyword (Some text) g).1 stored)) as [i Hi].
  { unfold keyword_index. rewrite Hc. destruct stored as [|c s] eqn:E; [done|].
    apply keyword_scan_Some. exists kw. split; [done|].
    unfold C.strcmp_eq. apply bool_decide_eq_true. by rewrite Hkw, Hc. }
  exists i.
  apply (proj1 (keyword_index_Some_inv _ _ _)) in Hi as Hspec.
  destruct Hspec as (_ & (kw' & Hkw' & Heq) & _).
  exists kw'. by rewrite Heq, Hc in *.
Qed.

Lemma registered_keyword_is_found_witness :
  ∃ i kw, keyword_index (append_keyword (Some (C.bytes "BTW")) (numbered_registry 3)).1
            (C.bytes "btw") = Some i
          ∧ g_keywords (append_keyword (Some (C.bytes "BTW")) (numbered_registry 3)).1 !! i
            = Some kw
          ∧ C.c_str kw = C.bytes "btw".
Proof.
  exact (registered_keyword_is_found (numbered_registry 3) (C.bytes "BTW") eq_refl).
Defined.

Lemma keyword_index_first_match_witness :
  keyword_index (numbered_registry 3) (C.bytes "ab") = Some 1.
Proof.
  apply (proj1 (keyword_index_first_match (numbered_registry 3) (C.bytes "ab") 1)).
  split; [discriminate|]. split.
  - exists (C.bytes "ab"). split; reflexivity.
  - intros j kw Hj Hkw. assert (j = 0) as -> by lia.
    injection Hkw as <-. discriminate.
Defined.

(** ** The registry: what registration keeps *)

(** X3: whatever texts are registered, in whatever order, the stored
    keywords are pairwise different, non-empty, free of NUL, lower-case and
    at most 128 bytes long, there are at most 512 of them, and
    [g_max_keyword_len] is the length of the longest one (1 when the
    registry is empty), so it lies between 1 and 128. *)
Theorem registrations_keep_registry_well_formed (texts : list (list byte)) :
  let g := register_all texts initial_globals in
  NoDup (g_keywords g)
  ∧ Forall (fun kw => kw ≠ [] ∧ (x00 ∉ kw) ∧ length kw ≤ MAX_KEYWORD_LEN
                      ∧ (C.tolower <$> kw) = kw) (g_keywords g)
  ∧ g_keyword_count g ≤ MAX_KEYWORDS
  ∧ g_max_keyword_len g = Nat.max 1 (longest (g_keywords g))
  ∧ 1 ≤ g_max_keyword_len g ≤ MAX_KEYWORD_LEN.
Proof.
  intros g.
  assert (registry_ok g) as Hreg by apply register_all_ok, registry_ok_initial.
  split; [apply Hreg|]. split; [|split; [apply Hreg|split; [apply Hreg|]]].
  - apply Forall_forall. intros kw Hkw.
    pose proof (reg_nonempty g Hreg) as H1. rewrite Forall_forall in H1.
    pose proof (reg_no_nul g Hreg) as H2. rewrite Forall_forall in H2.
    split; [by apply H1|]. split; [by apply H2|]. split.
    + pose proof (longest_ge _ _ Hkw). pose proof (reg_bound g Hreg). lia.
    + by apply (keyword_tolower g).
  - by apply registry_max_pos.
Qed.

Lemma append_keyword_prefix src g :
  g_keywords g `prefix_of` g_keywords (append_keyword src g).1
  ∧ g_max_keyword_len g ≤ g_max_keyword_len (append_keyword src g).1.
Proof.
  destruct src as [src|]; [|done]. unfold append_keyword.
  destruct (MAX_KEYWORDS <=? _); [done|].
  destruct (_ =? 0); [done|]. destruct (existsb _ _); [done|].
  cbn [fst g_keywords g_max_keyword_len]. split; [by apply prefix_app_r|].
  destruct (_ <? _) eqn:E; [apply Nat.ltb_lt in E|]; lia.
Qed.

(** X4: registration never removes, changes or renumbers a stored keyword,
    and never lowers [g_max_keyword_len]: the old table is a prefix of the
    new one, and a text that [keyword_index] found at index [i] is still
    found at index [i] after any further [append_keyword]. *)
Theorem registration_keeps_indices
    (src : option (list byte)) (g : globals) (text : list byte) (i : nat) :
  keyword_index g text = Some i ->
  keyword_index (append_keyword src g).1 text = Some i
  ∧ g_keywords g `prefix_of` g_keywords (append_keyword src g).1
  ∧ g_max_keyword_len g ≤ g_max_keyword_len (append_keyword src g).1.
Proof.
  intros Hi. destruct (append_keyword_prefix src g) as [[more Hmore] Hmax].
  split; [|split; [by exists more|done]].
  apply (proj1 (keyword_index_Some_inv _ _ _)) in Hi as (Hne & (kw & Hkw & Heq) & Hfirst).
  apply keyword_index_Some_inv. split; [done|].
  rewrite Hmore. split.
  - exists kw. split; [|done]. by apply lookup_app_l_Some.
  - intros j kw' Hj Hkw'. apply (Hfirst j kw' Hj).
    rewrite lookup_app_l in Hkw'; [done|].
    apply lookup_lt_Some in Hkw. lia.
Qed.

Lemma registration_keeps_indices_witness :
  keyword_index (append_keyword (Some (C.bytes "zz")) (numbered_registry 3)).1
    (C.bytes "ab") = Some 1
  ∧ g_keywords (numbered_registry 3)
    `prefix_of` g_keywords (append_keyword (Some (C.bytes "zz")) (numbered_registry 3)).1
  ∧ g_max_keyword_len (numbered_registry 3)
    ≤ g_max_keyword_len (append_keyword (Some (C.bytes "zz")) (numbered_registry 3)).1.
Proof.
  exact (registration_keeps_indices (Some (C.bytes "zz")) (numbered_registry 3)
           (C.bytes "ab") 1 eq_refl).
Defined.

(** ** Case *)

Lemma lower_copy_tolower src room :
  lower_copy (C.tolower <$> src) room = lower_copy src room.
Proof.
  revert room. induction src as [|c src IH]; intros [|room]; try done.
  rewrite fmap_cons. cbn [lower_copy].
  destruct (decide (c = x00)) as [->|Hc].
  - done.
  - rewrite decide_False by (intros H; by apply tolower_nul in H).
    by rewrite tolower_idem, IH.
Qed.

(** X5: upper and lower case are the same to the watcher: registering a
    text or its lower case gives the same result, and a typed character or
    its lower case act alike on the engine. *)
Theorem case_is_ignored (g : globals) (text : list byte) (raw : byte) :
  append_keyword (Some (C.tolower <$> text)) g = append_keyword (Some text) g
  ∧ process_char (C.tolower raw) g = process_char raw g.
Proof.
  split.
  - unfold append_keyword. by rewrite lower_copy_tolower.
  - unfold process_char. by rewrite tolower_idem.
Qed.

(** ** The scanner of the argument *)

Lemma scan_char_split s g ch :
  scan_char (s, g) ch =
    ((scan_char (s, initial_globals) ch).1,
     if closes_string s ch then (append_keyword (Some (current s)) g).1 else g).
Proof.
  unfold scan_char, closes_string.
  destruct (in_string s), (escaped s); cbn [negb andb fst snd];
    repeat case_decide; subst; try done;
    rewrite ?bool_decide_eq_true_2, ?bool_decide_eq_false_2 by done; done.
Qed.

Lemma scan_collect cs s g acc :
  foldl scan_char (s, register_all acc g) cs =
    ((foldl collect_char (s, acc) cs).1,
     register_all (foldl collect_char (s, acc) cs).2 g).
Proof.
  revert s acc. induction cs as [|ch cs IH]; intros s acc; [done|].
  cbn [foldl]. rewrite scan_char_split.
  unfold collect_char at 2 4. cbn [fst snd].
  destruct (closes_string s ch).
  - replace ((append_keyword (Some (current s)) (register_all acc g)).1)
      with (register_all (acc ++ [current s]) g); [apply IH|].
    unfold register_all. by rewrite foldl_app.
  - apply IH.
Qed.

Lemma parse_keywords_json_collect json g :
  parse_keywords_json (Some json) g
  = (register_all (scanned_texts json) g,
     0 <? g_keyword_count (register_all (scanned_texts json) g)).
Proof.
  unfold parse_keywords_json, scanned_texts.
  change g with (register_all [] g) at 1 2. by rewrite scan_collect.
Qed.

(** X6: [parse_keywords_json] registers, in order, exactly the string
    literals the scanner finds in the argument, whatever the globals are,
    and returns whether the registry then holds a keyword; so what [main]
    hands to the hook is [configure] of these texts. *)
Theorem parse_registers_scanned_texts (json : list byte) (g : globals) :
  parse_keywords_json (Some json) g
  = (register_all (scanned_texts json) g,
     0 <? g_keyword_count (register_all (scanned_texts json) g))
  ∧ apply_keyword_chars_to_charsets
      (parse_keywords_json (Some json) (seed_charsets initial_globals)).1
    = configure (scanned_texts json).
Proof.
  split; [apply parse_keywords_json_collect|]. by rewrite parse_keywords_json_collect.
Qed.

(** ** Escaping and scanning *)

Lemma push_currents cur text :
  length cur ≤ MAX_KEYWORD_LEN ->
  foldl push_current cur text = take MAX_KEYWORD_LEN (cur ++ text).
Proof.
  revert cur. induction text as [|c text IH]; intros cur Hlen.
  - rewrite app_nil_r. by rewrite take_ge.
  - cbn [foldl]. unfold push_current at 2.
    destruct (length cur <? MAX_KEYWORD_LEN) eqn:E.
    + apply Nat.ltb_lt in E. rewrite IH by (rewrite length_app; simpl; lia).
      by rewrite <- app_assoc.
    + apply Nat.ltb_ge in E. rewrite IH by done.
      by rewrite !take_app_le by lia.
Qed.

Lemma collect_escaped c cur acc :
  c ≠ x00 ->
  foldl collect_char (Scanner true false cur, acc) (json_escape_char c 16)
  = (Scanner true false (push_current cur c), acc).
Proof.
  intros Hc. unfold json_escape_char. cbn [Nat.eqb Nat.sub].
  repeat case_decide; subst; try done.
  cbn [C.c_str]. rewrite decide_False by done. cbn [take foldl].
  unfold collect_char, closes_string, scan_char. cbn [fst snd in_string escaped current negb andb].
  rewrite !decide_False by done. by rewrite bool_decide_eq_false_2 by done.
Qed.

Lemma collect_escaped_text text cur acc :
  x00 ∉ text ->
  foldl collect_char (Scanner true false cur, acc)
    (concat ((fun c => json_escape_char c 16) <$> text))
  = (Scanner true false (foldl push_current cur text), acc).
Proof.
  revert cur. induction text as [|c text IH]; intros cur Hnul; [done|].
  apply not_elem_of_cons in Hnul as [Hc Hnul].
  rewrite fmap_cons. cbn [concat foldl]. rewrite foldl_app, collect_escaped by done.
  by apply IH.
Qed.

Lemma collect_json_string text e cur acc :
  x00 ∉ text ->
  foldl collect_char (Scanner false e cur, acc) (json_string text)
  = (Scanner false false (take MAX_KEYWORD_LEN text),
     acc ++ [take MAX_KEYWORD_LEN text]).
Proof.
  intros Hnul. unfold json_string. rewrite !foldl_app. cbn [foldl].
  change (collect_char (Scanner false e cur, acc) x22) with (Scanner true false [], acc).
  rewrite collect_escaped_text by done.
  rewrite push_currents by (simpl; unfold MAX_KEYWORD_LEN; lia).
  reflexivity.
Qed.

Lemma elem_of_concat {A} (x : A) (ls : list (list A)) :
  x ∈ concat ls -> ∃ l, l ∈ ls ∧ x ∈ l.
Proof.
  induction ls as [|l ls IH]; simpl; [by intros ?%elem_of_nil|].
  intros [Hin|Hin]%elem_of_app.
  - exists l. split; [apply list_elem_of_here|done].
  - destruct (IH Hin) as (l' & ? & ?). exists l'. split; [by apply list_elem_of_further|done].
Qed.

Lemma json_escape_char_no_nul c : x00 ∉ json_escape_char c 16.
Proof.
  unfold json_escape_char. cbn [Nat.eqb Nat.sub].
  repeat case_decide; subst;
    try (intros Hin; apply list_elem_of_In in Hin; simpl in Hin;
         destruct Hin as [?|[?|[]]]; discriminate).
  intros Hin%subseteq_take. by apply c_str_no_nul in Hin.
Qed.

Lemma json_string_no_nul text : x00 ∉ json_string text.
Proof.
  unfold json_string. rewrite !elem_of_app, !list_elem_of_singleton.
  intros [?|[Hin|?]]; try done.
  apply elem_of_concat in Hin as (l & (c & -> & _)%list_elem_of_fmap & Hin).
  by apply json_escape_char_no_nul in Hin.
Qed.

Lemma collect_json_strings texts first acc :
  Forall (fun t => x00 ∉ t) texts ->
  ∃ cur,
    foldl collect_char (Scanner false false first, acc)
      (concat ((fun t => C.bytes "," ++ json_string t) <$> texts))
    = (Scanner false false cur, acc ++ (take MAX_KEYWORD_LEN <$> texts)).
Proof.
  revert first acc. induction texts as [|t texts IH]; intros first acc Hnul.
  - exists first. simpl. by rewrite app_nil_r.
  - apply Forall_cons in Hnul as [Ht Hnul].
    rewrite fmap_cons. cbn [concat]. change (C.bytes ",") with [x2c].
    rewrite !foldl_app. cbn [foldl].
    change (collect_char (Scanner false false first, acc) x2c)
      with (Scanner false false first, acc).
    rewrite collect_json_string by done.
    destruct (IH (take MAX_KEYWORD_LEN t) (acc ++ [take MAX_KEYWORD_LEN t]) Hnul)
      as [cur Hcur].
    exists cur. change (C.bytes ",") with [x2c] in Hcur. rewrite Hcur.
    by rewrite fmap_cons, <- app_assoc.
Qed.

Lemma scanned_json_array texts :
  Forall (fun t => x00 ∉ t) texts ->
  C.c_str (json_array texts) = json_array texts
  ∧ scanned_texts (json_array texts) = take MAX_KEYWORD_LEN <$> texts.
Proof.
  intros Hnul.
  assert (x00 ∉ json_array texts) as Hno.
  { destruct texts as [|t ts].
    { intros Hin. apply list_elem_of_In in Hin. simpl in Hin.
      destruct Hin as [?|[?|[]]]; discriminate. }
    unfold json_array. rewrite !elem_of_app.
    intros [Hin|[Hin|[Hin|Hin]]].
    - apply list_elem_of_singleton in Hin. discriminate.
    - by apply json_string_no_nul in Hin.
    - apply elem_of_concat in Hin as (l & (t' & -> & _)%list_elem_of_fmap & Hin).
      apply elem_of_app in Hin as [Hin|Hin].
      + apply list_elem_of_singleton in Hin. discriminate.
      + by apply json_string_no_nul in Hin.
    - apply list_elem_of_singleton in Hin. discriminate. }
  split; [by apply c_str_id|].
  unfold scanned_texts. rewrite c_str_id by done.
  destruct texts as [|t ts]; [done|].
  apply Forall_cons in Hnul as [Ht Hts].
  unfold json_array. change (C.bytes "[") with [x5b]. change (C.bytes "]") with [x5d].
  rewrite !foldl_app. cbn [foldl].
  change (collect_char (Scanner false false [], []) x5b)
    with (Scanner false false [], @nil (list byte)).
  rewrite collect_json_string by done.
  destruct (collect_json_strings ts (take MAX_KEYWORD_LEN t) [take MAX_KEYWORD_LEN t] Hts)
    as [cur Hcur].
  change (C.bytes ",") with [x2c] in Hcur |- *. cbn [app] in Hcur |- *. by rewrite Hcur.
Qed.

Lemma append_keyword_take text g :
  x00 ∉ text ->
  append_keyword (Some (take MAX_KEYWORD_LEN text)) g = append_keyword (Some text) g.
Proof.
  intros Hnul. unfold append_keyword.
  replace (lower_copy (take MAX_KEYWORD_LEN text) MAX_KEYWORD_LEN)
    with (lower_copy text MAX_KEYWORD_LEN); [done|].
  rewrite !lower_copy_spec. rewrite (c_str_id text) by done.
  rewrite (c_str_id (take MAX_KEYWORD_LEN text))
    by (intros Hin; by apply subseteq_take in Hin).
  by rewrite take_take, Nat.min_id.
Qed.

(** X7: the scanner undoes [json_escape_char].  For texts without NUL, the
    argument made of their string literals, escaped as [json_escape_char]
    escapes, registers exactly these texts, in order; the scanner hands over
    the first 128 bytes of each, which is all [append_keyword] reads. *)
Theorem parse_of_escaped_array (texts : list (list byte)) (g : globals) :
  Forall (fun t => x00 ∉ t) texts ->
  scanned_texts (json_array texts) = take MAX_KEYWORD_LEN <$> texts
  ∧ parse_keywords_json (Some (json_array texts)) g
    = (register_all texts g, 0 <? g_keyword_count (register_all texts g)).
Proof.
  intros Hnul. destruct (scanned_json_array texts Hnul) as [_ Hscan].
  split; [done|]. rewrite parse_keywords_json_collect, Hscan.
  replace (register_all (take MAX_KEYWORD_LEN <$> texts) g) with (register_all texts g); [done|].
  clear Hscan. revert g. induction Hnul as [|t ts Ht _ IH]; intros g; [done|].
  rewrite fmap_cons, !register_all_cons. rewrite append_keyword_take by done. apply IH.
Qed.

Lemma parse_of_escaped_array_witness :
  scanned_texts (json_array [[x61; x22; x62]; [x5c; x0a; x09]])
  = take MAX_KEYWORD_LEN <$> [[x61; x22; x62]; [x5c; x0a; x09]]
  ∧ parse_keywords_json (Some (json_array [[x61; x22; x62]; [x5c; x0a; x09]])) initial_globals
    = (register_all [[x61; x22; x62]; [x5c; x0a; x09]] initial_globals,
       0 <? g_keyword_count
              (register_all [[x61; x22; x62]; [x5c; x0a; x09]] initial_globals)).
Proof.
  apply (parse_of_escaped_array [[x61; x22; x62]; [x5c; x0a; x09]] initial_globals).
  repeat constructor; intros Hin; apply list_elem_of_In in Hin; simpl in Hin;
    repeat (destruct Hin as [Hin|Hin]; [discriminate Hin|]); exact Hin.
Defined.

(** ** What the running watcher emits *)

Lemma configure_buffer_ok texts : buffer_ok (configure texts).
Proof.
  split.
  - rewrite configure_token. constructor.
  - intros c Hws. unfold configure.
    destruct (register_all_tables texts (seed_charsets initial_globals)) as (Ha & Hd & _).
    destruct (apply_keyword_chars_get
                (register_all texts (seed_charsets initial_globals)) c) as [-> _].
    + rewrite Ha. apply seed_charsets_length.
    + rewrite Hd. apply seed_charsets_length.
    + rewrite Ha. apply orb_false_iff. split.
      * revert Hws. clear. destruct c; vm_compute; congruence.
      * destruct (widened _ c) eqn:E; [|done].
        apply widened_inv in E as (_ & _ & _ & _ & _ & E). congruence.
Qed.

Lemma engine_step_buffer_ok i g :
  engine_ok g -> buffer_ok g -> buffer_ok (engine_step i g).1.
Proof.
  intros Hok [Hall Hws].
  assert (∀ token, Forall (fun c => tbl_get (g_allowed g) c = true) token ->
                   buffer_ok (set_token g token)) as Hset by (intros; by split).
  destruct i; cbn [engine_step fst]; try (apply Hset; constructor).
  - destruct (is_token_char g c) eqn:Htok.
    + rewrite process_char_token by done. case_decide; cbn [fst]; [apply Hset; constructor|].
      apply Hset, Forall_forall. intros c' Hc'.
      apply most_recent_elem, elem_of_app in Hc' as [Hc'|Hc'%list_elem_of_singleton].
      * rewrite Forall_forall in Hall. by apply Hall.
      * by subst.
    + destruct (is_delimiter_char g c) eqn:Hd.
      * rewrite process_char_delimiter by done. apply Hset; constructor.
      * rewrite process_char_other by done. apply Hset; constructor.
  - unfold backspace. destruct (0 <? _); [|by split].
    apply Hset, Forall_forall. intros c Hc%subseteq_take.
    rewrite Forall_forall in Hall. by apply Hall.
Qed.

Lemma reachable_buffer_ok g : reachable g -> buffer_ok g.
Proof.
  induction 1 as [texts|i g Hg IH]; [apply configure_buffer_ok|].
  apply engine_step_buffer_ok; [by apply reachable_ok|done].
Qed.

Lemma engine_step_emitted i g m :
  engine_ok g -> buffer_ok g -> m ∈ (engine_step i g).2 ->
  ∃ kw d, m = Keyword kw d
    ∧ kw ∈ g_keywords g
    ∧ Forall (fun c => tbl_get (g_allowed g) c = true) kw
    ∧ (d = NUL ∨ (tbl_get (g_delimiters g) d = true ∧ tbl_get (g_allowed g) d = false)).
Proof.
  intros Hok [Hall Hws] Hin.
  destruct i; cbn [engine_step snd] in Hin; try by apply elem_of_nil in Hin.
  destruct (is_token_char g c) eqn:Htok.
  - rewrite process_char_token in Hin by done.
    case_decide as Hk; cbn [snd] in Hin; [|by apply elem_of_nil in Hin].
    apply list_elem_of_singleton in Hin. subst m. eexists _, _. split; [done|].
    split; [done|]. split; [|by left].
    apply Forall_forall. intros c' Hc'.
    apply most_recent_elem, elem_of_app in Hc' as [Hc'|Hc'%list_elem_of_singleton].
    + rewrite Forall_forall in Hall. by apply Hall.
    + by subst.
  - destruct (is_delimiter_char g c) eqn:Hd.
    + rewrite process_char_delimiter in Hin by done. cbn [snd] in Hin.
      case_decide as Hk; [|by apply elem_of_nil in Hin].
      apply list_elem_of_singleton in Hin. subst m. eexists _, _. split; [done|].
      split; [done|]. split; [done|]. right.
      unfold is_delimiter_char in Hd. apply andb_true_iff in Hd as [Ha%negb_true_iff Hd].
      done.
    + rewrite process_char_other in Hin by done. by apply elem_of_nil in Hin.
Qed.

(** X8: the watcher reports registered keywords only.  In every reachable
    state, whatever the input, each message emitted is a keyword match whose
    keyword is in the registry and whose delimiter is the sentinel NUL or a
    byte that the tables hold as a delimiter and not as a token
    character. *)
Theorem emitted_keywords_are_registered (i : engine_input) (g : globals) (m : message) :
  reachable g ->
  m ∈ (engine_step i g).2 ->
  ∃ kw d, m = Keyword kw d
    ∧ kw ∈ g_keywords g
    ∧ (d = NUL ∨ (tbl_get (g_delimiters g) d = true ∧ tbl_get (g_allowed g) d = false)).
Proof.
  intros Hg Hin.
  destruct (engine_step_emitted i g m (reachable_ok g Hg) (reachable_buffer_ok g Hg) Hin)
    as (kw & d & ? & ? & _ & ?).
  by exists kw, d.
Qed.

Lemma emitted_keywords_are_registered_witness :
  ∃ kw d, Keyword (C.bytes "ab") " " = Keyword kw d
    ∧ kw ∈ g_keywords state_ab_in_buffer
    ∧ (d = NUL ∨ (tbl_get (g_delimiters state_ab_in_buffer) d = true
                  ∧ tbl_get (g_allowed state_ab_in_buffer) d = false)).
Proof.
  apply (emitted_keywords_are_registered (TypeChar " ") state_ab_in_buffer).
  - apply reachable_run, reachable_configure.
  - apply (bool_decide_unpack _). vm_compute. exact I.
Defined.

(** X9: a keyword with a space, a tab, a carriage return or a line feed in
    it is registered but can never be matched: in every reachable state the
    buffer holds token characters only, these four bytes are never token
    characters, and so no input makes the watcher emit such a keyword. *)
Theorem whitespace_keyword_never_fires
    (i : engine_input) (g : globals) (kw : list byte) (d c : byte) :
  reachable g ->
  c ∈ kw -> is_keyword_whitespace c = true ->
  Forall (fun b => is_keyword_whitespace b = false) (g_token g)
  ∧ Keyword kw d ∉ (engine_step i g).2.
Proof.
  intros Hg Hc Hws.
  pose proof (reachable_buffer_ok g Hg) as Hbuf.
  split.
  - apply Forall_forall. intros b Hb.
    destruct (is_keyword_whitespace b) eqn:E; [|done].
    pose proof (buf_allowed g Hbuf) as Hall. rewrite Forall_forall in Hall.
    specialize (Hall b Hb). by rewrite (buf_whitespace g Hbuf b E) in Hall.
  - intros Hin.
    destruct (engine_step_emitted i g _ (reachable_ok g Hg) Hbuf Hin)
      as (kw' & d' & [= <- <-] & _ & Hall & _).
    rewrite Forall_forall in Hall. specialize (Hall c Hc).
    by rewrite (buf_whitespace g Hbuf c Hws) in Hall.
Qed.

Lemma whitespace_keyword_never_fires_witness :
  Forall (fun b => is_keyword_whitespace b = false)
    (g_token (watcher_after ["a b"] (typing "a")))
  ∧ Keyword (C.bytes "a b") NUL
    ∉ (engine_step (TypeChar "b") (watcher_after ["a b"] (typing "a"))).2.
Proof.
  apply (whitespace_keyword_never_fires (TypeChar "b")
           (watcher_after ["a b"] (typing "a")) (C.bytes "a b") NUL " ").
  - apply reachable_run, reachable_configure.
  - apply (bool_decide_unpack _). vm_compute. exact I.
  - reflexivity.
Defined.

(** ** Classification *)

Lemma reachable_tables g :
  reachable g ->
  ∃ texts, g_allowed g = g_allowed (configure texts)
           ∧ g_delimiters g = g_delimiters (configure texts)
           ∧ g_keywords g = g_keywords (configure texts).
Proof.
  induction 1 as [texts|i g _ (texts & Ha & Hd & Hk)]; [by exists texts|].
  exists texts. destruct (engine_step_frame i g) as [token ->]. done.
Qed.

Lemma configure_tables_get texts c :
  tbl_get (g_allowed (configure texts)) c
  = tbl_get (g_allowed (seed_charsets initial_globals)) c
    || widened (g_keywords (configure texts)) c
  ∧ tbl_get (g_delimiters (configure texts)) c
    = tbl_get (g_delimiters (seed_charsets initial_globals)) c
      && negb (widened (g_keywords (configure texts)) c).
Proof.
  unfold configure.
  destruct (register_all_tables texts (seed_charsets initial_globals)) as (Ha & Hd & _).
  assert (length (g_allowed (register_all texts (seed_charsets initial_globals))) = 256)
    as La by (rewrite Ha; apply seed_charsets_length).
  assert (length (g_delimiters (register_all texts (seed_charsets initial_globals))) = 256)
    as Ld by (rewrite Hd; apply seed_charsets_length).
  pose proof (apply_keyword_chars_get _ c La Ld) as H. rewrite Ha, Hd in H. exact H.
Qed.

(** X10: in every reachable state each printable ASCII character, and tab,
    line feed and carriage return, is classified as a token character or as
    a delimiter, never as "other"; a character that is a token character by
    default (letter, digit, hyphen, underscore) stays one, and a delimiter
    by default is a delimiter unless a keyword made it a token character. *)
Theorem text_characters_are_classified (g : globals) (c : byte) :
  reachable g ->
  is_text_char c = true ->
  (is_token_char g c = true ∨ is_delimiter_char g c = true)
  ∧ (is_token_char (seed_charsets initial_globals) c = true -> is_token_char g c = true)
  ∧ (is_delimiter_char (seed_charsets initial_globals) c = true ->
     is_delimiter_char g c = negb (is_token_char g c)).
Proof.
  intros (texts & Ha & Hd & _)%reachable_tables Htext.
  unfold is_token_char, is_delimiter_char. rewrite Ha, Hd.
  destruct (configure_tables_get texts (C.tolower c)) as [-> ->].
  assert (tbl_get (g_allowed (seed_charsets initial_globals)) (C.tolower c) = true
          ∨ tbl_get (g_delimiters (seed_charsets initial_globals)) (C.tolower c) = true)
    as Hseed.
  { revert Htext. clear. destruct c; vm_compute; auto; congruence. }
  pose proof (seed_charsets_disjoint initial_globals (C.tolower c)) as Hdisj.
  destruct (tbl_get (g_allowed (seed_charsets initial_globals)) (C.tolower c)),
    (tbl_get (g_delimiters (seed_charsets initial_globals)) (C.tolower c)),
    (widened (g_keywords (configure texts)) (C.tolower c));
    cbn; try tauto; try (destruct Hseed; congruence); auto.
Qed.

Lemma text_characters_are_classified_witness :
  (is_token_char state_ab_in_buffer "Q" = true
   ∨ is_delimiter_char state_ab_in_buffer "Q" = true)
  ∧ (is_token_char (seed_charsets initial_globals) "Q" = true ->
     is_token_char state_ab_in_buffer "Q" = true)
  ∧ (is_delimiter_char (seed_charsets initial_globals) "Q" = true ->
     is_delimiter_char state_ab_in_buffer "Q" = negb (is_token_char state_ab_in_buffer "Q")).
Proof.
  apply (text_characters_are_classified state_ab_in_buffer "Q").
  - apply reachable_run, reachable_configure.
  - reflexivity.
Defined.

(** ** Backspace *)

(** X11: a backspace undoes a typed character.  In a reachable state whose
    buffer is shorter than [g_max_keyword_len], a token character that does
    not complete a keyword followed by a backspace leaves the globals as
    they were and emits nothing. *)
Theorem backspace_undoes_character (g : globals) (c : byte) :
  reachable g ->
  is_token_char g c = true ->
  g_token_len g < g_max_keyword_len g ->
  g_token g ++ [C.tolower c] ∉ g_keywords g ->
  engine_run [TypeChar c; PressBackspace] g = (g, [[]; []]).
Proof.
  intros Hok%reachable_ok Htok Hlen Hnk.
  rewrite !engine_run_cons. cbn [engine_step engine_run fst snd].
  rewrite process_char_token by done.
  rewrite most_recent_all by (rewrite length_app; unfold g_token_len in Hlen; simpl; lia).
  rewrite decide_False by done. cbn [fst snd].
  unfold backspace, g_token_len. cbn [set_token g_token].
  rewrite length_app. cbn [length].
  replace (0 <? length (g_token g) + 1) with true by (symmetry; apply Nat.ltb_lt; lia).
  replace (length (g_token g) + 1 - 1) with (length (g_token g)) by lia.
  rewrite take_app_length. f_equal.
  transitivity (set_token g (g_token g)); [done|apply set_token_id].
Qed.

Lemma backspace_undoes_character_witness :
  engine_run [TypeChar "g"; PressBackspace] (watcher_after ["sigma"] (typing "si"))
  = (watcher_after ["sigma"] (typing "si"), [[]; []]).
Proof.
  apply (backspace_undoes_character (watcher_after ["sigma"] (typing "si")) "g").
  - apply reachable_run, reachable_configure.
  - reflexivity.
  - vm_compute. lia.
  - intros Hin. apply (bool_decide_pack _) in Hin. vm_compute in Hin. exact Hin.
Defined.

(** ** Key events *)

(** X12: a key event acts on the buffer as its decoded code units fed to
    the engine one at a time, in order: VK_BACK is one backspace input, a
    held modifier or a failed [GetKeyboardState] one clearing input, and
    each of the first [rc] code units is a typed character when it is in
    1..127 and a clearing input when it is not.  The layout engine is called
    once when the key is decoded, twice when the return code is negative,
    and not at all for VK_BACK, a held modifier or a failed
    [GetKeyboardState]. *)
Theorem key_event_is_engine_run (k : key_event) (g : globals) :
  process_key_event k g
  = ((engine_run (key_inputs k) g).1, concat (engine_run (key_inputs k) g).2,
     key_layout_calls k).
Proof.
  pose proof (process_key_event_run k g) as Hrun.
  destruct (process_key_event k g) as [[g' out] calls] eqn:E. cbn [fst] in Hrun.
  rewrite <- Hrun. f_equal.
  revert E. unfold process_key_event, key_layout_calls.
  destruct (vk k =? VK_BACK)%Z; [by intros [= _ _ <-]|].
  destruct (is_modifier_down k); [by intros [= _ _ <-]|].
  destruct (negb (keyboard_state_ok k)); [by intros [= _ _ <-]|].
  destruct (to_unicode_rc k <=? 0)%Z eqn:Hrc; [by intros [= _ _ <-]|].
  apply Z.leb_gt in Hrc.
  replace (to_unicode_rc k <? 0)%Z with false by (symmetry; apply Z.ltb_ge; lia).
  destruct (foldl process_unit _ _). by intros [= _ _ <-].
Qed.

(** ** The whole process *)

Lemma engine_run_reaches inputs g m :
  reachable g -> m ∈ concat (engine_run inputs g).2 ->
  ∃ g' i, reachable g' ∧ g_keywords g' = g_keywords g ∧ m ∈ (engine_step i g').2.
Proof.
  revert g. induction inputs as [|i inputs IH]; intros g Hg Hin.
  - by apply elem_of_nil in Hin.
  - rewrite engine_run_cons in Hin. cbn [snd concat] in Hin.
    apply elem_of_app in Hin as [Hin|Hin]; [by exists g, i|].
    destruct (IH (engine_step i g).1) as (g' & i' & ? & Hk & ?);
      [by apply reachable_step|done|].
    exists g', i'. split; [done|]. split; [|done].
    rewrite Hk. by destruct (engine_step_frame i g) as [t ->].
Qed.

Lemma keyboard_hook_reaches h g out :
  reachable g ->
  reachable (keyboard_hook h (g, out)).1
  ∧ g_keywords (keyboard_hook h (g, out)).1 = g_keywords g
  ∧ ∃ events, (keyboard_hook h (g, out)).2 = out ++ events
      ∧ ∀ m, m ∈ events ->
          ∃ g' i, reachable g' ∧ g_keywords g' = g_keywords g ∧ m ∈ (engine_step i g').2.
Proof.
  intros Hg. unfold keyboard_hook. destruct (_ && _).
  - pose proof (process_key_event_run (kb h) g) as Hrun.
    destruct (process_key_event (kb h) g) as [[g' out'] calls]. cbn [fst snd] in *.
    injection Hrun as -> ->. split; [by apply reachable_run|]. split.
    + by destruct (engine_run_frame (key_inputs (kb h)) g) as [t ->].
    + eexists. split; [done|]. intros m Hm.
      by apply (engine_run_reaches (key_inputs (kb h)) g).
  - split; [done|]. split; [done|]. exists []. split; [by rewrite app_nil_r|].
    by intros m ?%elem_of_nil.
Qed.

Lemma message_loop_reaches calls g out :
  reachable g ->
  ∃ events, (foldl (fun st h => keyboard_hook h st) (g, out) calls).2 = out ++ events
    ∧ ∀ m, m ∈ events ->
        ∃ g' i, reachable g' ∧ g_keywords g' = g_keywords g ∧ m ∈ (engine_step i g').2.
Proof.
  revert g out. induction calls as [|h calls IH]; intros g out Hg.
  - exists []. split; [by rewrite app_nil_r|]. by intros m ?%elem_of_nil.
  - cbn [foldl].
    destruct (keyboard_hook_reaches h g out Hg) as (Hg1 & Hk1 & ev1 & Hev1 & Hm1).
    destruct (keyboard_hook h (g, out)) as [g1 out1]. cbn [fst snd] in *. subst out1.
    destruct (IH g1 (out ++ ev1) Hg1) as (ev2 & -> & Hm2).
    exists (ev1 ++ ev2). split; [by rewrite app_assoc|].
    intros m [Hm|Hm]%elem_of_app; [auto|].
    destruct (Hm2 m Hm) as (g' & i & ? & Hk & ?). exists g', i. by rewrite Hk.
Qed.

(** What [main] can write: one of its three error messages alone, or the
    ready message followed by messages that the engine emits in states
    reachable from [configure] of the scanned texts. *)
Lemma main_output r m :
  m ∈ (main r).1 ->
  m = Error "Usage: snippet-expander-win <keywords-json>"
  ∨ m = Error "Invalid or empty keywords JSON"
  ∨ m = Error "SetWindowsHookEx failed"
  ∨ m = Ready
  ∨ ∃ json g i,
      argv r !! 1 = Some json
      ∧ reachable g
      ∧ g_keywords g = g_keywords (configure (scanned_texts json))
      ∧ m ∈ (engine_step i g).2.
Proof.
  unfold main. destruct (length (argv r) <? 2) eqn:Hargc.
  { intros ->%list_elem_of_singleton. by left. }
  apply Nat.ltb_ge in Hargc.
  destruct (argv r !! 1) as [json|] eqn:Hjson;
    [|apply lookup_ge_None in Hjson; lia].
  rewrite parse_keywords_json_collect.
  destruct (0 <? _); cbn [negb];
    [|intros ->%list_elem_of_singleton; right; by left].
  destruct (hook_installed r); cbn [negb];
    [|intros ->%list_elem_of_singleton; right; right; by left].
  destruct (message_loop_reaches (delivered r) (configure (scanned_texts json)) [emit_ready])
    as (events & Hout & Hev); [apply reachable_configure|].
  change (apply_keyword_chars_to_charsets
            (register_all (scanned_texts json) (seed_charsets initial_globals)))
    with (configure (scanned_texts json)).
  destruct (foldl _ _ (delivered r)) as [g' out]. cbn [snd] in Hout. subst out. cbn [fst].
  intros [Hin|Hin]%elem_of_app; [apply list_elem_of_singleton in Hin; auto 10|].
  destruct (Hev m Hin) as (g & i & ? & ? & ?).
  do 4 right. by exists json, g, i.
Qed.

Lemma hook_calls_filtered calls st :
  foldl (fun st h => keyboard_hook h st) st (filter (fun h => hook_acts h = true) calls)
  = foldl (fun st h => keyboard_hook h st) st calls.
Proof.
  revert st. induction calls as [|h calls IH]; intros st; [done|].
  rewrite filter_cons. cbn [foldl]. destruct (hook_acts h) eqn:E.
  - rewrite decide_True by done. cbn [foldl]. apply IH.
  - rewrite decide_False by congruence. rewrite IH. f_equal.
    destruct st as [g out]. unfold keyboard_hook. unfold hook_acts in E. by rewrite E.
Qed.

(** X13: only key-down calls with [nCode = HC_ACTION] count.  Removing every
    other hook call (key-up messages, calls with another [nCode]) from what
    the message loop delivers changes neither what [main] writes nor its
    exit code. *)
Theorem main_ignores_other_hook_calls (r : run) :
  main (Run (argv r) (hook_installed r)
          (filter (fun h => hook_acts h = true) (delivered r)))
  = main r.
Proof.
  unfold main. cbn [argv hook_installed delivered].
  destruct (length (argv r) <? 2); [done|].
  destruct (parse_keywords_json _ _) as [g ok].
  destruct (negb ok); [done|]. destruct (negb (hook_installed r)); [done|].
  by rewrite hook_calls_filtered.
Qed.

Lemma register_all_sources texts g kw :
  kw ∈ g_keywords (register_all texts g) ->
  kw ∈ g_keywords g
  ∨ ∃ text, text ∈ texts ∧ kw = C.tolower <$> take MAX_KEYWORD_LEN (C.c_str text).
Proof.
  revert g. induction texts as [|t texts IH]; intros g Hin; [by left|].
  rewrite register_all_cons in Hin. apply IH in Hin as [Hin|(text & Ht & ->)].
  - destruct (append_keyword (Some t) g) as [g1 ok] eqn:E. cbn [fst] in Hin.
    destruct ok.
    + destruct (append_keyword_stored t g) as (_ & [Hk|Hk] & _); [by rewrite E| |];
        rewrite E in Hk; cbn [fst] in Hk; rewrite Hk in Hin; [by left|].
      apply elem_of_app in Hin as [Hin|Hin%list_elem_of_singleton]; [by left|].
      right. exists t. split; [apply list_elem_of_here|done].
    + left. revert E Hin. unfold append_keyword.
      repeat (match goal with |- context [if ?b then _ else _] => destruct b end);
        intros E Hin'; by simplify_eq.
  - right. exists text. split; [by apply list_elem_of_further|done].
Qed.

(** X14: end to end, every keyword that [main] writes is the lower case of
    the first 128 bytes of a string literal of its argument, and has no
    space, tab, carriage return or line feed in it. *)
Theorem main_reports_configured_keywords (r : run) (kw : list byte) (d : byte) :
  Keyword kw d ∈ (main r).1 ->
  ∃ json text,
    argv r !! 1 = Some json
    ∧ text ∈ scanned_texts json
    ∧ kw = C.tolower <$> take MAX_KEYWORD_LEN (C.c_str text)
    ∧ Forall (fun c => is_keyword_whitespace c = false) kw.
Proof.
  intros Hin.
  destruct (main_output r _ Hin) as [?|[?|[?|[?|(json & g & i & Hjson & Hg & Hk & Hm)]]]];
    try done.
  destruct (engine_step_emitted i g _ (reachable_ok g Hg) (reachable_buffer_ok g Hg) Hm)
    as (kw' & d' & [= <- <-] & Hreg & Hall & _).
  rewrite Hk in Hreg.
  change (g_keywords (configure (scanned_texts json)))
    with (g_keywords (register_all (scanned_texts json) (seed_charsets initial_globals)))
    in Hreg.
  apply register_all_sources in Hreg as [Hreg|(text & Htext & ->)];
    [by apply elem_of_nil in Hreg|].
  exists json, text. split; [done|]. split; [done|]. split; [done|].
  apply Forall_forall. intros c Hc.
  destruct (is_keyword_whitespace c) eqn:E; [|done].
  rewrite Forall_forall in Hall. specialize (Hall c Hc).
  by rewrite (buf_whitespace g (reachable_buffer_ok g Hg) c E) in Hall.
Qed.

Lemma main_reports_configured_keywords_witness :
  ∃ json text,
    argv run_until_shutdown !! 1 = Some json
    ∧ text ∈ scanned_texts json
    ∧ C.bytes "sig" = C.tolower <$> take MAX_KEYWORD_LEN (C.c_str text)
    ∧ Forall (fun c => is_keyword_whitespace c = false) (C.bytes "sig").
Proof.
  apply (main_reports_configured_keywords run_until_shutdown (C.bytes "sig") NUL).
  apply (bool_decide_unpack _). vm_compute. exact I.
Defined.

(** ** Lines on stdout *)

Lemma json_escape_char_line d :
  (x0a ∉ json_escape_char d 16) ∧ (x0d ∉ json_escape_char d 16)
  ∧ length (json_escape_char d 16) ≤ 2.
Proof.
  destruct d; (split; [|split]);
    try (intros Hin; apply (bool_decide_pack _) in Hin; vm_compute in Hin; exact Hin);
    vm_compute; lia.
Qed.

Ltac split_elem_of H :=
  repeat match type of H with
         | _ ∈ _ ++ _ => apply elem_of_app in H as [H|H]
         end.

Lemma render_line m :
  (∀ kw d, m = Keyword kw d -> (x0a ∉ kw) ∧ (x0d ∉ kw)) ->
  (∀ msg, m = Error msg -> (x0a ∉ C.bytes msg) ∧ (x0d ∉ C.bytes msg)) ->
  ∃ body, render m = body ++ [x0a] ∧ (x0a ∉ body) ∧ (x0d ∉ body).
Proof.
  intros Hkw Herr. destruct m as [|kw d|msg]; unfold render; rewrite !app_assoc;
    (eexists; split; [reflexivity|]).
  - split; intros Hin; apply (bool_decide_pack _) in Hin; vm_compute in Hin; exact Hin.
  - destruct (Hkw kw d eq_refl) as [Hk1 Hk2].
    destruct (json_escape_char_line d) as (He1 & He2 & _).
    split; intros Hin; split_elem_of Hin; try done;
      apply (bool_decide_pack _) in Hin; vm_compute in Hin; exact Hin.
  - destruct (Herr msg eq_refl) as [Hm1 Hm2].
    split; intros Hin; split_elem_of Hin; try done;
      apply (bool_decide_pack _) in Hin; vm_compute in Hin; exact Hin.
Qed.

(** X15: the output stays line-delimited.  Every message [main] writes is
    printed as one line: its text ends with a line feed and has no other
    line feed and no carriage return in it, because a matched keyword never
    holds one and [json_escape_char] escapes the delimiter. *)
Theorem main_writes_whole_lines (r : run) (m : message) :
  m ∈ (main r).1 ->
  ∃ body, render m = body ++ [x0a] ∧ (x0a ∉ body) ∧ (x0d ∉ body).
Proof.
  intros Hin. apply render_line.
  - intros kw d ->.
    destruct (main_output r _ Hin) as [?|[?|[?|[?|(json & g & i & _ & Hg & _ & Hm)]]]];
      try done.
    pose proof (reachable_buffer_ok g Hg) as Hbuf.
    destruct (engine_step_emitted i g _ (reachable_ok g Hg) Hbuf Hm)
      as (kw' & d' & [= <- <-] & _ & Hall & _).
    rewrite Forall_forall in Hall.
    split; intros Hc; specialize (Hall _ Hc);
      by rewrite (buf_whitespace g Hbuf) in Hall.
  - intros msg ->.
    destruct (main_output r _ Hin) as [[= ->]|[[= ->]|[[= ->]|[?|(? & g & i & _ & Hg & _ & Hm)]]]];
      try done;
      try (split; intros Hc; apply (bool_decide_pack _) in Hc; vm_compute in Hc; exact Hc).
    destruct (engine_step_emitted i g _ (reachable_ok g Hg) (reachable_buffer_ok g Hg) Hm)
      as (? & ? & ? & _). done.
Qed.

Lemma main_writes_whole_lines_witness :
  ∃ body, render (Keyword (C.bytes "sig") NUL) = body ++ [x0a] ∧ (x0a ∉ body) ∧ (x0d ∉ body).
Proof.
  apply (main_writes_whole_lines run_until_shutdown (Keyword (C.bytes "sig") NUL)).
  apply (bool_decide_unpack _). vm_compute. exact I.
Defined.

(** ** Recognition *)

(** X16: recognition is complete for keywords that can be typed.  In a
    reachable state with an empty buffer (as after any delimiter, modifier
    chord or match), typing a registered keyword that has no whitespace and
    no registered proper prefix emits nothing until its last character and
    then exactly the match on it, with the sentinel delimiter, and leaves
    the globals as they were; this includes keywords with characters that
    are delimiters by default. *)
Theorem typed_keyword_fires (g : globals) (k : list byte) :
  reachable g ->
  g_token g = [] ->
  k ∈ g_keywords g ->
  (∀ c, c ∈ k -> is_keyword_whitespace c = false) ->
  (∀ p, proper_prefix p k -> p ∉ g_keywords g) ->
  engine_run (type_text k) g = (g, replicate (length k - 1) [] ++ [[Keyword k NUL]]).
Proof. intros Hg%reachable_ok. by apply type_keyword. Qed.

Lemma typed_keyword_fires_witness :
  engine_run (type_text (C.bytes "sig!")) (watcher_after ["sig!"; "btw"] (typing "xy "))
  = (watcher_after ["sig!"; "btw"] (typing "xy "),
     replicate (length (C.bytes "sig!") - 1) [] ++ [[Keyword (C.bytes "sig!") NUL]]).
Proof.
  apply (typed_keyword_fires (watcher_after ["sig!"; "btw"] (typing "xy ")) (C.bytes "sig!")).
  - apply reachable_run, reachable_configure.
  - reflexivity.
  - apply (bool_decide_unpack _). vm_compute. exact I.
  - intros c Hc. apply list_elem_of_In in Hc. simpl in Hc.
    destruct Hc as [<-|[<-|[<-|[<-|[]]]]]; reflexivity.
  - intros p (Hne & Hneq & Hpre) Hin.
    change (g_keywords (watcher_after ["sig!"; "btw"] (typing "xy ")))
      with [C.bytes "sig!"; C.bytes "btw"] in Hin.
    apply elem_of_cons in Hin as [->|Hin]; [done|].
    apply list_elem_of_singleton in Hin. subst p.
    destruct Hpre as [rest Hrest]. discriminate Hrest.
Defined.

Lemma engine_step_not_keyword i g :
  engine_ok g -> is_backspace i = false -> g_token (engine_step i g).1 ∉ g_keywords g.
Proof.
  intros Hok Hi. destruct i; try done; cbn [engine_step fst].
  - by apply process_char_not_keyword.
  - apply (nil_not_keyword g), Hok.
  - apply (nil_not_keyword g), Hok.
Qed.

Lemma engine_step_sentinel i g m :
  engine_ok g -> g_token g ∉ g_keywords g -> m ∈ (engine_step i g).2 ->
  ∃ kw, m = Keyword kw NUL.
Proof.
  intros Hok Hnk Hin.
  destruct i; cbn [engine_step snd] in Hin; try by apply elem_of_nil in Hin.
  destruct (is_token_char g c) eqn:Htok.
  - rewrite process_char_token in Hin by done.
    case_decide; cbn [snd] in Hin; [|by apply elem_of_nil in Hin].
    apply list_elem_of_singleton in Hin. by eexists.
  - destruct (is_delimiter_char g c) eqn:Hd.
    + rewrite process_char_delimiter in Hin by done. cbn [snd] in Hin.
      rewrite decide_False in Hin by done. by apply elem_of_nil in Hin.
    + rewrite process_char_other in Hin by done. by apply elem_of_nil in Hin.
Qed.

(** X17: without a backspace a delimiter never confirms anything.  From
    start-up, on inputs that contain no backspace, the buffer is never a
    keyword when the next input arrives, so every match is emitted on the
    token-character path and carries the sentinel delimiter NUL; a typed
    delimiter only clears the buffer. *)
Theorem matches_carry_sentinel_without_backspace
    (texts : list (list byte)) (inputs : list engine_input) (m : message) :
  Forall (fun i => is_backspace i = false) inputs ->
  m ∈ concat (engine_run inputs (configure texts)).2 ->
  ∃ kw, m = Keyword kw NUL.
Proof.
  intros Hnb.
  assert (∀ g, engine_ok g -> g_token g ∉ g_keywords g ->
            m ∈ concat (engine_run inputs g).2 -> ∃ kw, m = Keyword kw NUL) as H.
  { induction Hnb as [|i inputs Hi _ IH]; intros g Hok Hnk Hin.
    - by apply elem_of_nil in Hin.
    - rewrite engine_run_cons in Hin. cbn [snd concat] in Hin.
      apply elem_of_app in Hin as [Hin|Hin]; [by apply (engine_step_sentinel i g)|].
      apply (IH (engine_step i g).1); [by apply engine_step_ok| |done].
      pose proof (engine_step_not_keyword i g Hok Hi) as Hnk'.
      by destruct (engine_step_frame i g) as [t Ht]; rewrite Ht in *. }
  apply H; [apply configure_ok|].
  rewrite configure_token. apply nil_not_keyword, configure_ok.
Qed.

Lemma matches_carry_sentinel_without_backspace_witness :
  ∃ kw, Keyword (C.bytes "sig") NUL = Keyword kw NUL.
Proof.
  apply (matches_carry_sentinel_without_backspace
           [C.bytes "sig"; C.bytes "btw"] (typing "sig btw ")).
  - repeat constructor.
  - apply (bool_decide_unpack _). vm_compute. exact I.
Defined.

(** X18: the buffer never overflows.  In every reachable state the buffer
    holds no NUL and at most [g_max_keyword_len] bytes, which is at most
    128, so the capacity test against 512 in [process_char] never fails and
    the terminator always fits; the registry and the two tables are those
    of start-up. *)
Theorem reachable_buffer_within_bounds (g : globals) :
  reachable g ->
  g_token_len g ≤ g_max_keyword_len g
  ∧ g_max_keyword_len g ≤ MAX_KEYWORD_LEN
  ∧ g_token_len g < MAX_TOKEN_LEN
  ∧ (x00 ∉ g_token g)
  ∧ ∃ texts, g_keywords g = g_keywords (configure texts)
             ∧ g_max_keyword_len g = g_max_keyword_len (configure texts)
             ∧ g_allowed g = g_allowed (configure texts)
             ∧ g_delimiters g = g_delimiters (configure texts).
Proof.
  intros Hg. pose proof (reachable_ok g Hg) as Hok.
  split; [apply Hok|]. split; [by apply registry_max_pos, Hok|].
  split; [by apply token_below_limit|]. split; [apply Hok|].
  clear Hok. induction Hg as [texts|i g _ (texts & Hk & Hm & Ha & Hd)]; [by exists texts|].
  exists texts. by destruct (engine_step_frame i g) as [token ->].
Qed.

Lemma reachable_buffer_within_bounds_witness :
  g_token_len state_ab_in_buffer ≤ g_max_keyword_len state_ab_in_buffer
  ∧ g_max_keyword_len state_ab_in_buffer ≤ MAX_KEYWORD_LEN
  ∧ g_token_len state_ab_in_buffer < MAX_TOKEN_LEN
  ∧ (x00 ∉ g_token state_ab_in_buffer)
  ∧ ∃ texts, g_keywords state_ab_in_buffer = g_keywords (configure texts)
             ∧ g_max_keyword_len state_ab_in_buffer = g_max_keyword_len (configure texts)
             ∧ g_allowed state_ab_in_buffer = g_allowed (configure texts)
             ∧ g_delimiters state_ab_in_buffer = g_delimiters (configure texts).
Proof.
  apply (reachable_buffer_within_bounds state_ab_in_buffer).
  apply reachable_run, reachable_configure.
Defined.

(** * The key-hold watcher *)

Example hold_ctrl_f :
  HoldMonitor.main HoldMonitor.run_ctrl_f
  = ([HoldMonitor.ReadyLine; HoldMonitor.Pressed; HoldMonitor.ReleasedKeyUp], 0%Z).
Proof. reflexivity. Qed.

Lemma cg_to_vk_range cg :
  HoldMonitor.cg_to_vk cg ≠ (-1)%Z ->
  (0 <= cg <= 53)%Z ∧ (0 < HoldMonitor.cg_to_vk cg < 255)%Z.
Proof.
  destruct cg as [|p|p]; [| do 7 (try destruct p as [p|p|]) |];
    cbv [HoldMonitor.cg_to_vk HoldMonitor.VK_TAB HoldMonitor.VK_RETURN HoldMonitor.VK_ESCAPE
         HoldMonitor.VK_SPACE HoldMonitor.VK_OEM_1 HoldMonitor.VK_OEM_PLUS
         HoldMonitor.VK_OEM_COMMA HoldMonitor.VK_OEM_MINUS HoldMonitor.VK_OEM_PERIOD
         HoldMonitor.VK_OEM_2 HoldMonitor.VK_OEM_3 HoldMonitor.VK_OEM_4 HoldMonitor.VK_OEM_5
         HoldMonitor.VK_OEM_6 HoldMonitor.VK_OEM_7];
    lia.
Qed.

Lemma cg_to_vk_table_injective :
  forallb (fun a =>
    forallb (fun b =>
      implb ((HoldMonitor.cg_to_vk a =? HoldMonitor.cg_to_vk b)%Z
             && negb (HoldMonitor.cg_to_vk a =? -1)%Z) (a =? b)%Z)
      (seqZ 0 54)) (seqZ 0 54) = true.
Proof. vm_compute. reflexivity. Qed.

(** X19: [cg_to_vk] maps different supported key codes to different virtual
    keys; the supported codes lie in 0..53 and their virtual keys in
    1..254. *)
Theorem cg_to_vk_injective (a b : Z) :
  HoldMonitor.cg_to_vk a ≠ (-1)%Z ->
  HoldMonitor.cg_to_vk a = HoldMonitor.cg_to_vk b ->
  a = b ∧ (0 <= a <= 53)%Z ∧ (0 < HoldMonitor.cg_to_vk a < 255)%Z.
Proof.
  intros Ha Hab.
  destruct (cg_to_vk_range a Ha) as [Hra Hva].
  destruct (cg_to_vk_range b) as [Hrb _]; [by rewrite <- Hab|].
  split; [|done].
  pose proof cg_to_vk_table_injective as Htab.
  rewrite forallb_forall in Htab.
  assert (In a (seqZ 0 54)) as Hina by (apply list_elem_of_In, elem_of_seqZ; lia).
  specialize (Htab a Hina). rewrite forallb_forall in Htab.
  assert (In b (seqZ 0 54)) as Hinb by (apply list_elem_of_In, elem_of_seqZ; lia).
  specialize (Htab b Hinb).
  rewrite Hab, Z.eqb_refl in Htab. cbn [andb] in Htab.
  destruct (HoldMonitor.cg_to_vk b =? -1)%Z eqn:E.
  - apply Z.eqb_eq in E. congruence.
  - cbn in Htab. by apply Z.eqb_eq.
Qed.

Lemma cg_to_vk_injective_witness :
  3%Z = 3%Z ∧ (0 <= 3 <= 53)%Z ∧ (0 < HoldMonitor.cg_to_vk 3 < 255)%Z.
Proof.
  apply (cg_to_vk_injective 3 3); [discriminate|reflexivity].
Defined.

Lemma hold_hook_calls_acc calls g out quits :
  foldl (fun st h =>
           let '(g, out, quits) := st in
           let '(g', out', quits') := HoldMonitor.kbhook h g in
           (g', out ++ out', quits + quits'))
        (g, out, quits) calls
  = ((HoldMonitor.hook_calls calls g).1.1,
     out ++ (HoldMonitor.hook_calls calls g).1.2,
     quits + (HoldMonitor.hook_calls calls g).2).
Proof.
  unfold HoldMonitor.hook_calls.
  revert g out quits. induction calls as [|h calls IH]; intros g out quits.
  - cbn [foldl fst snd]. by rewrite app_nil_r, Nat.add_0_r.
  - cbn [foldl]. destruct (HoldMonitor.kbhook h g) as [[g1 out1] q1].
    rewrite (IH g1 (out ++ out1) (quits + q1)), (IH g1 ([] ++ out1) (0 + q1)).
    cbn [fst snd app Nat.add]. by rewrite <- app_assoc, <- Nat.add_assoc.
Qed.

Lemma hold_hook_calls_cons h calls g :
  HoldMonitor.hook_calls (h :: calls) g
  = ((HoldMonitor.hook_calls calls (HoldMonitor.kbhook h g).1.1).1.1,
     (HoldMonitor.kbhook h g).1.2 ++ (HoldMonitor.hook_calls calls (HoldMonitor.kbhook h g).1.1).1.2,
     (HoldMonitor.kbhook h g).2 + (HoldMonitor.hook_calls calls (HoldMonitor.kbhook h g).1.1).2).
Proof.
  unfold HoldMonitor.hook_calls at 1. cbn [foldl].
  destruct (HoldMonitor.kbhook h g) as [[g1 out1] q1]. cbn [fst snd].
  by rewrite hold_hook_calls_acc.
Qed.

(** Once the key is held, every line is a release and comes with one
    [PostQuitMessage]; the key stays held. *)
Lemma hold_after_pressed calls g :
  HoldMonitor.g_pressed g = true ->
  (HoldMonitor.hook_calls calls g).1.1 = g
  ∧ Forall (fun l => HoldMonitor.is_released l = true) (HoldMonitor.hook_calls calls g).1.2
  ∧ (HoldMonitor.hook_calls calls g).2 = length (HoldMonitor.hook_calls calls g).1.2.
Proof.
  intros Hp. induction calls as [|h calls IH]; [by repeat split|].
  rewrite hold_hook_calls_cons.
  assert ((HoldMonitor.kbhook h g).1.1 = g
          ∧ Forall (fun l => HoldMonitor.is_released l = true) (HoldMonitor.kbhook h g).1.2
          ∧ (HoldMonitor.kbhook h g).2 = length (HoldMonitor.kbhook h g).1.2) as (Hg & Hout & Hq).
  { unfold HoldMonitor.kbhook. rewrite Hp. cbn [negb andb].
    repeat (match goal with |- context [if ?b then _ else _] => destruct b end);
      cbn [fst snd]; repeat split; by repeat constructor. }
  rewrite Hg. destruct IH as (IH1 & IH2 & IH3). cbn [fst snd].
  split; [done|]. split; [by apply Forall_app|].
  rewrite length_app. lia.
Qed.

Lemma hold_output_shape (calls : list HoldMonitor.hook_call)
    (g : HoldMonitor.globals) :
  HoldMonitor.g_pressed g = false ->
  let g' := (HoldMonitor.hook_calls calls g).1.1 in
  let out := (HoldMonitor.hook_calls calls g).1.2 in
  let quits := (HoldMonitor.hook_calls calls g).2 in
  ((out = [] ∧ quits = 0 ∧ g' = g)
   ∨ ∃ releases,
       out = HoldMonitor.Pressed :: releases
       ∧ Forall (fun l => HoldMonitor.is_released l = true) releases
       ∧ quits = length releases
       ∧ HoldMonitor.g_pressed g' = true)
  ∧ HoldMonitor.g_vk g' = HoldMonitor.g_vk g
  ∧ HoldMonitor.g_need_ctrl g' = HoldMonitor.g_need_ctrl g
  ∧ HoldMonitor.g_need_alt g' = HoldMonitor.g_need_alt g
  ∧ HoldMonitor.g_need_shift g' = HoldMonitor.g_need_shift g.
Proof.
  intros Hp. cbn zeta. induction calls as [|h calls IH]; [split; [by left|done]|].
  rewrite hold_hook_calls_cons. cbn [fst snd].
  assert ((HoldMonitor.kbhook h g = (g, [], 0))
          ∨ HoldMonitor.kbhook h g
            = (HoldMonitor.Globals (HoldMonitor.g_vk g) (HoldMonitor.g_need_ctrl g)
                 (HoldMonitor.g_need_alt g) (HoldMonitor.g_need_shift g) true,
               [HoldMonitor.Pressed], 0)) as [->| ->].
  { unfold HoldMonitor.kbhook. rewrite Hp. cbn [negb andb].
    repeat (match goal with |- context [if ?b then _ else _] => destruct b end); auto. }
  - cbn [fst snd app]. exact IH.
  - cbn [fst snd app].
    destruct (hold_after_pressed calls
                (HoldMonitor.Globals (HoldMonitor.g_vk g) (HoldMonitor.g_need_ctrl g)
                   (HoldMonitor.g_need_alt g) (HoldMonitor.g_need_shift g) true) eq_refl)
      as (-> & Hrel & Hq).
    split; [|done]. right. eexists. split; [done|]. split; [done|]. split; [|done].
    rewrite Hq. lia.
Qed.

(** X20: the hold watcher reports a press at most once and a release only
    after it.  From globals with [g_pressed = 0] and whatever hook calls
    arrive, either nothing is printed and the key is still not held, or the
    first line is the press, the key is then held for good, and every later
    line is a release; [PostQuitMessage] is called once for each release
    line; the configured key and modifiers never change. *)
Theorem hold_pressed_once_then_released (calls : list HoldMonitor.hook_call)
    (g : HoldMonitor.globals) :
  HoldMonitor.g_pressed g = false ->
  let g' := (HoldMonitor.hook_calls calls g).1.1 in
  let out := (HoldMonitor.hook_calls calls g).1.2 in
  let quits := (HoldMonitor.hook_calls calls g).2 in
  ((out = [] ∧ quits = 0 ∧ g' = g)
   ∨ ∃ releases,
       out = HoldMonitor.Pressed :: releases
       ∧ Forall (fun l => HoldMonitor.is_released l = true) releases
       ∧ quits = length releases
       ∧ HoldMonitor.g_pressed g' = true)
  ∧ HoldMonitor.g_vk g' = HoldMonitor.g_vk g
  ∧ HoldMonitor.g_need_ctrl g' = HoldMonitor.g_need_ctrl g
  ∧ HoldMonitor.g_need_alt g' = HoldMonitor.g_need_alt g
  ∧ HoldMonitor.g_need_shift g' = HoldMonitor.g_need_shift g.
Proof. apply hold_output_shape. Qed.

Lemma hold_pressed_once_then_released_witness :
  ∃ releases,
    (HoldMonitor.hook_calls (HoldMonitor.delivered HoldMonitor.run_ctrl_f)
       (HoldMonitor.Globals 70 true false false false)).1.2
    = HoldMonitor.Pressed :: releases
    ∧ Forall (fun l => HoldMonitor.is_released l = true) releases.
Proof.
  destruct (hold_pressed_once_then_released
              (HoldMonitor.delivered HoldMonitor.run_ctrl_f)
              (HoldMonitor.Globals 70 true false false false) eq_refl)
    as [[(Hnil & _)|(releases & Hout & Hrel & _)] _].
  - vm_compute in Hnil. discriminate Hnil.
  - by exists releases.
Defined.

(** X21: the exit codes of the hold watcher.  [main] prints one error line
    and returns 1 when fewer than six arguments are given or the key code
    has no virtual key, prints one error line and returns 2 when the hook
    cannot be installed, and otherwise prints the ready line first, then at
    most one press followed by releases only, and returns 0. *)
Theorem hold_main_exit_codes (r : HoldMonitor.run) :
  (length (HoldMonitor.argv r) < 7
   ∨ HoldMonitor.cg_to_vk (HoldMonitor.atoi_argv1 r) = (-1)%Z ->
   ∃ msg, HoldMonitor.main r = ([HoldMonitor.ErrorLine msg], 1%Z))
  ∧ (7 ≤ length (HoldMonitor.argv r) ->
     HoldMonitor.cg_to_vk (HoldMonitor.atoi_argv1 r) ≠ (-1)%Z ->
     HoldMonitor.hook_installed r = false ->
     ∃ msg, HoldMonitor.main r = ([HoldMonitor.ErrorLine msg], 2%Z))
  ∧ (7 ≤ length (HoldMonitor.argv r) ->
     HoldMonitor.cg_to_vk (HoldMonitor.atoi_argv1 r) ≠ (-1)%Z ->
     HoldMonitor.hook_installed r = true ->
     (HoldMonitor.main r).2 = 0%Z
     ∧ ((HoldMonitor.main r).1 = [HoldMonitor.ReadyLine]
        ∨ ∃ releases,
            (HoldMonitor.main r).1
            = HoldMonitor.ReadyLine :: HoldMonitor.Pressed :: releases
            ∧ Forall (fun l => HoldMonitor.is_released l = true) releases)).
Proof.
  unfold HoldMonitor.main.
  destruct (length (HoldMonitor.argv r) <? 7) eqn:Hargc.
  { apply Nat.ltb_lt in Hargc. split; [intros _; by eexists|]. split; intros; lia. }
  apply Nat.ltb_ge in Hargc.
  destruct (decide (HoldMonitor.cg_to_vk (HoldMonitor.atoi_argv1 r) = (-1)%Z)) as [Hvk|Hvk].
  { rewrite Hvk. cbn [Z.ltb Z.compare]. split; [intros _; by eexists|]. split; by intros. }
  destruct (cg_to_vk_range _ Hvk) as [_ Hpos].
  replace (HoldMonitor.cg_to_vk (HoldMonitor.atoi_argv1 r) <? 0)%Z with false
    by (symmetry; apply Z.ltb_ge; lia).
  split; [intros [?|?]; [lia|done]|].
  destruct (HoldMonitor.hook_installed r); cbn [negb].
  - split; [by intros|]. intros _ _ _. split; [done|]. cbn [fst].
    match goal with |- context [HoldMonitor.hook_calls ?c ?g] =>
      destruct (hold_output_shape c g eq_refl) as [[(-> & _)|(rel & -> & Hrel & _)] _]
    end; [by left|right; by exists rel].
  - split; [intros _ _ _; by eexists|by intros].
Qed.

Lemma hold_main_exit_codes_witness :
  (HoldMonitor.main HoldMonitor.run_ctrl_f).2 = 0%Z
  ∧ ((HoldMonitor.main HoldMonitor.run_ctrl_f).1 = [HoldMonitor.ReadyLine]
     ∨ ∃ releases,
         (HoldMonitor.main HoldMonitor.run_ctrl_f).1
         = HoldMonitor.ReadyLine :: HoldMonitor.Pressed :: releases
         ∧ Forall (fun l => HoldMonitor.is_released l = true) releases).
Proof.
  apply (hold_main_exit_codes HoldMonitor.run_ctrl_f).
  - vm_compute. lia.
  - discriminate.
  - reflexivity.
Defined.

(** ** Keys that type nothing *)

Lemma keyboard_hook_no_character h st :
  key_has_no_character (kb h) = true -> keyboard_hook h st = st.
Proof.
  unfold key_has_no_character. intros H.
  repeat (apply andb_true_iff in H as [H ?]).
  apply negb_true_iff in H.
  destruct st as [g out]. unfold keyboard_hook, process_key_event.
  destruct (_ && _); [|done].
  rewrite H. destruct (is_modifier_down (kb h)); [done|].
  destruct (keyboard_state_ok (kb h)); [|done]. cbn [negb].
  destruct (to_unicode_rc (kb h) <=? 0)%Z; [|done]. by rewrite app_nil_r.
Qed.

(** X22: keys that type nothing are invisible.  A bare Shift press or a dead
    key (any key-down that is not VK_BACK, with no Ctrl, Alt or Win held,
    for which [ToUnicodeEx] returns 0 or less) neither clears nor changes
    the buffer: removing all such hook calls from what the message loop
    delivers changes neither what [main] writes nor its exit code. *)
Theorem main_ignores_keys_without_character (r : run) :
  main (Run (argv r) (hook_installed r)
          (filter (fun h => key_has_no_character (kb h) = false) (delivered r)))
  = main r.
Proof.
  assert (∀ calls st,
            foldl (fun st h => keyboard_hook h st) st
              (filter (fun h => key_has_no_character (kb h) = false) calls)
            = foldl (fun st h => keyboard_hook h st) st calls) as Hfilter.
  { induction calls as [|h calls IH]; intros st; [done|].
    rewrite filter_cons. cbn [foldl]. destruct (key_has_no_character (kb h)) eqn:E.
    - rewrite decide_False by congruence. by rewrite IH, keyboard_hook_no_character.
    - rewrite decide_True by done. cbn [foldl]. apply IH. }
  unfold main. cbn [argv hook_installed delivered].
  destruct (length (argv r) <? 2); [done|].
  destruct (parse_keywords_json _ _) as [g ok].
  destruct (negb ok); [done|]. destruct (negb (hook_installed r)); [done|].
  by rewrite Hfilter.
Qed.
